(** * Verification of the offset-repair and conversion drivers

    Shallow embedding of
      - tools/offsetFix_msvc/offsetFix.h  (the repair state: [Offsets], [MCIN],
        [OffsetFixData], and the five repair steps it declares),
      - tools/offsetFix_msvc/main.cpp     (the repair driver),
      - tools/fixes/main.cpp              (the conversion driver).

    The bodies of the five repair steps and the wowfiles classes used by the
    conversion driver are not part of the sources at hand.  The drivers are
    therefore embedded as functions of those operations; a second layer,
    marked "Modelled from the spec", gives the operations the behaviour the
    specification describes. *)

From Stdlib Require Import ZArith List Lia Strings.Byte SpecFloat.
From stdpp Require Import base gmap strings list vector.

Open Scope Z_scope.

(** ** Machine data *)

(** [UInt32] of offsetFix.h: an unsigned 32-bit value, wrap-around explicit. *)
Definition wrap32 (z : Z) : Z := z mod 2 ^ 32.

Definition Z_of_byte (b : byte) : Z := Z.of_N (Byte.to_N b).

Definition byte_of_Z (z : Z) : byte :=
  match Byte.of_N (Z.to_N (z mod 256)) with
  | Some b => b
  | None => x00
  end.

#[global] Instance byte_eq_dec : EqDecision byte := Byte.byte_eq_dec.

(** [float] of offsetFix.h: IEEE-754 binary32, as a [spec_float] with a 24-bit
    significand and infinities at exponent 128. *)
Definition float32 : Type := spec_float.
Definition f32_zero : float32 := S754_zero false.
Definition f32_add (a b : float32) : float32 := SFadd 24 128 a b.

(** ** offsetFix.h *)

(** [a[k] = v] on a fixed-size array.  (Outside the bounds the C++ is
    undefined; here nothing is written.) *)
Definition vset {A} {n : nat} (k : nat) (v : A) (a : vec A n) : vec A n :=
  match decide (k < n)%nat with
  | left H => vinsert (nat_to_fin H) v a
  | right _ => a
  end.

Module Offsets.
Record t := mk {
  x : Z; y : Z;
  xf : float32; zf : float32;
  zOff : float32;
  wdtXOff : float32; wdtYOff : float32; wdtZOff : float32
}.

(** Value-initialisation ([= {}]): every member is zero. *)
Definition zero : t :=
  mk 0 0 f32_zero f32_zero f32_zero f32_zero f32_zero f32_zero.
End Offsets.

Module MCIN.
Record t := mk { offset : Z; size : Z; temp1 : Z; temp2 : Z }.
Definition zero : t := mk 0 0 0 0.
End MCIN.

Module OffsetFixData.
Record t := mk {
  offset : Offsets.t;
  offsetMDDF : Z;
  offsetMODF : Z;
  positionsMCNK : vec Z 256;       (* UInt32 positionsMCNK[256] *)
  positions : vec MCIN.t 256       (* MCIN positions[256] *)
}.

(** [OffsetFixData offData = {};] *)
Definition zero : t :=
  mk Offsets.zero 0 0 (vreplicate 256 0) (vreplicate 256 MCIN.zero).
End OffsetFixData.

(** ** Errors, streams and the file system *)

(** What a repair step can throw: the error kinds of the error-handling
    design, or any other [std::exception].  (The handler of [main] catches
    [const std::exception&] only; a step that throws anything else ends the
    process abnormally and is outside this model.) *)
Inductive exn :=
  | TruncatedChunk
  | UnknownChunkTag
  | DanglingNameIndex
  | MissingExpectedChunk
  | OffsetOutOfRange
  | StdException (msg : string).

(** [e.what()] *)
Definition what (e : exn) : string :=
  match e with
  | TruncatedChunk => "TruncatedChunk"
  | UnknownChunkTag => "UnknownChunkTag"
  | DanglingNameIndex => "DanglingNameIndex"
  | MissingExpectedChunk => "MissingExpectedChunk"
  | OffsetOutOfRange => "OffsetOutOfRange"
  | StdException msg => msg
  end.

(** A step receives [std::fstream&] and [OffsetFixData&].  The stream is the
    input file opened for reading and writing, so what a step writes lands in
    that file; the stream is modelled by the bytes of the file.  A step either
    returns, or throws with the file as it stands at the throw. *)
Inductive Result :=
  | Done (buf : list byte) (d : OffsetFixData.t)
  | Raised (e : exn) (buf : list byte).

Definition Step : Type := list byte → OffsetFixData.t → Result.

(** The five functions declared in offsetFix.h. *)
Record RepairOps := {
  findMCNKs : Step;
  findMDDFandMODF : Step;
  fixMCNKs : Step;
  fixDoodads : Step;
  fixWMOs : Step
}.

Inductive StepName :=
  FindMCNKs | FindMDDFandMODF | FixMCNKs | FixDoodads | FixWMOs.

#[global] Instance StepName_eq_dec : EqDecision StepName.
Proof. solve_decision. Defined.

(** The file system: the content of every existing file, and the paths that
    cannot be opened for writing.  A file is known by its path: two names of
    one file (a link, or [in.adt] and [./in.adt]) are not modelled, so two
    paths are the same file exactly when they are the same string. *)
Record FS := mkFS {
  files : gmap string (list byte);
  readonly : gset string
}.

(** [std::fstream f(p, in | out | binary)]: the file must exist and be writable. *)
Definition open_rw (fs : FS) (p : string) : option (list byte) :=
  if decide (p ∈ readonly fs) then None else files fs !! p.

(** [std::ofstream f(p, binary)]: creates the file or truncates it. *)
Definition open_w (fs : FS) (p : string) : option FS :=
  if decide (p ∈ readonly fs) then None
  else Some (mkFS (<[p := []]> (files fs)) (readonly fs)).

(** [std::ifstream f(p, binary)] followed by reading everything. *)
Definition open_r (fs : FS) (p : string) : option (list byte) := files fs !! p.

(** Closing (or destroying) a stream flushes its bytes to the file. *)
Definition store (fs : FS) (p : string) (buf : list byte) : FS :=
  mkFS (<[p := buf]> (files fs)) (readonly fs).

Definition endl : string := String (Ascii.ascii_of_nat 10) EmptyString.

(** ** tools/offsetFix_msvc/main.cpp *)

Module OffsetFix.

(** State of the [try] block: what the last step returned, and the steps
    called so far, oldest first. *)
Record Run := mkRun { result : Result; calls : list StepName }.

Definition start (buf : list byte) (d : OffsetFixData.t) : Run :=
  mkRun (Done buf d) [].

(** One statement of the [try] block: skipped once an exception is in flight. *)
Definition call (n : StepName) (s : Step) (r : Run) : Run :=
  match result r with
  | Done buf d => mkRun (s buf d) (calls r ++ [n])
  | Raised _ _ => r
  end.

Definition try_block (ops : RepairOps) (buf : list byte) (d : OffsetFixData.t) : Run :=
  call FixWMOs (fixWMOs ops)
    (call FixDoodads (fixDoodads ops)
      (call FixMCNKs (fixMCNKs ops)
        (call FindMDDFandMODF (findMDDFandMODF ops)
          (call FindMCNKs (findMCNKs ops) (start buf d))))).

Record Outcome := mkOutcome {
  exit_code : Z;
  fs_after : FS;
  cerr : string;
  cout : string;
  steps_called : list StepName
}.

Definition main (ops : RepairOps) (argv : list string) (fs : FS) : Outcome :=
  if (length argv <? 3)%nat then
    mkOutcome 1 fs ("Usage: offsetFix <input.wdt> <output.wdt>" +:+ endl) "" []
  else
    let arg1 := nth 1 argv "" in
    let arg2 := nth 2 argv "" in
    match open_rw fs arg1 with
    | None => mkOutcome 1 fs ("Error opening file: " +:+ arg1 +:+ endl) "" []
    | Some zoneFile =>
      let offData := OffsetFixData.zero in
      let r := try_block ops zoneFile offData in
      match result r with
      | Raised e buf =>
        mkOutcome 1 (store fs arg1 buf)
          ("Error processing file: " +:+ what e +:+ endl) "" (calls r)
      | Done buf _ =>
        let fs1 := store fs arg1 buf in            (* zoneFile.close() *)
        match open_w fs1 arg2 with
        | None =>
          mkOutcome 1 fs1 ("Error creating output file: " +:+ arg2 +:+ endl) ""
            (calls r)
        | Some fs2 =>
          let copied := default [] (open_r fs2 arg1) in  (* inFile.rdbuf() *)
          mkOutcome 0 (store fs2 arg2 copied) ""
            ("Successfully processed " +:+ arg1 +:+ endl +:+
             "Output saved to " +:+ arg2 +:+ endl)
            (calls r)
        end
      end
    end.

End OffsetFix.

(** ** tools/fixes/main.cpp *)

(** The wowfiles classes the conversion driver uses.  Their sources are not at
    hand: the driver is embedded over this interface.  A constructor or a
    conversion that throws returns [None].

    The driver indexes a [std::vector<int>] with the unchecked [operator[]]
    (main.cpp, line 37).  Outside the bounds the language leaves the read
    undefined: the run goes on with whatever int lies there, or the read ends
    the process.  [past_the_end v i] stands for what this machine does then:
    [Some z] for the int found, [None] for a run that dies. *)
Class WowFiles := {
  WdtAlpha : Type;
  Wdt : Type;
  AdtAlpha : Type;
  AdtLk : Type;
  WdtAlpha_new : string → option WdtAlpha;                (* WdtAlpha(wdtName) *)
  toWdt : WdtAlpha → option Wdt;
  getExistingAdtsNumbers : WdtAlpha → list Z;
  getAdtOffsetsInMain : WdtAlpha → list Z;
  getMdnmFileNames : WdtAlpha → list string;
  getMonmFileNames : WdtAlpha → list string;
  AdtAlpha_new : string → Z → Z → option AdtAlpha;        (* AdtAlpha(name, offset, adtNum) *)
  toAdtLk : AdtAlpha → list string → list string → option AdtLk;
  past_the_end : list Z → Z → option Z
}.

Module Fixes.
Section Driver.
Context {W : WowFiles}.

(** A [toFile()] call: the world table, or the area file of tile [adtNum]. *)
Inductive Written :=
  | WdtFile (w : Wdt)
  | AdtFile (adtNum : Z) (a : AdtLk).

(** [status] is [None] when the run ends without [main] returning: an
    exception leaves [main], or a read outside a vector ends the process. *)
Record Conversion := mkConversion {
  status : option Z;
  written : list Written;
  errors : string
}.

(** [v[i]] on a [std::vector<int>], without a bounds check: the element
    inside the bounds, whatever the machine gives outside them. *)
Definition at_index (v : list Z) (i : Z) : option Z :=
  if decide (0 ≤ i < Z.of_nat (length v)) then v !! Z.to_nat i
  else past_the_end v i.

(** The [for] loop over [adtsNums], from [currentAdt] on; [out] is what has
    been written so far. *)
Fixpoint convert_adts (wdtName : string) (adtsOffsets : list Z)
    (mdnmNames monmNames : list string) (adtsNums : list Z)
    (out : list Written) : Conversion :=
  match adtsNums with
  | [] => mkConversion (Some 0) out ""
  | adtNum :: later =>
    match at_index adtsOffsets adtNum with
    | None => mkConversion None out ""
    | Some off =>
      match AdtAlpha_new wdtName off adtNum with
      | None => mkConversion None out ""
      | Some testAdt =>
        match toAdtLk testAdt mdnmNames monmNames with
        | None => mkConversion None out ""
        | Some testAdtLk =>
          convert_adts wdtName adtsOffsets mdnmNames monmNames later
            (out ++ [AdtFile adtNum testAdtLk])
        end
      end
    end
  end.

Definition main (argv : list string) : Conversion :=
  if (length argv <? 2)%nat then
    mkConversion (Some 1) [] ("Error: No input file provided!" +:+ endl)
  else
    let wdtName := nth 1 argv "" in
    match WdtAlpha_new wdtName with
    | None => mkConversion None [] ""
    | Some testWdtAlpha =>
      match toWdt testWdtAlpha with
      | None => mkConversion None [] ""
      | Some testWdt =>
        let adtsNums := getExistingAdtsNumbers testWdtAlpha in
        let adtsOffsets := getAdtOffsetsInMain testWdtAlpha in
        let mdnmNames := getMdnmFileNames testWdtAlpha in
        let monmNames := getMonmFileNames testWdtAlpha in
        convert_adts wdtName adtsOffsets mdnmNames monmNames adtsNums
          [WdtFile testWdt]
      end
    end.
(** How many world-table files, and how many area files for tile [n], a run
    has written. *)
Definition is_wdt (w : Written) : bool :=
  match w with WdtFile _ => true | AdtFile _ _ => false end.

Definition is_adt (n : Z) (w : Written) : bool :=
  match w with WdtFile _ => false | AdtFile m _ => bool_decide (m = n) end.

Definition wdt_files (c : Conversion) : nat := length (filter is_wdt (written c)).
Definition adt_files (n : Z) (c : Conversion) : nat := length (filter (is_adt n) (written c)).

(** Every call the loop body makes for tile [n] returns (and the read of its
    offset, when [n] lies outside the offset table, gives a value). *)
Definition tile_converts (wdtName : string) (w : WdtAlpha) (n : Z) : Prop :=
  ∃ off a lk,
    at_index (getAdtOffsetsInMain w) n = Some off
    ∧ AdtAlpha_new wdtName off n = Some a
    ∧ toAdtLk a (getMdnmFileNames w) (getMonmFileNames w) = Some lk.
End Driver.
End Fixes.

(** ** The chunk engine and the repair steps *)

(** Little-endian 32-bit fields. *)
Definition le32 (bs : list byte) : Z :=
  foldr (λ b acc, Z_of_byte b + 256 * acc) 0 bs.

Definition u32_bytes (v : Z) : list byte :=
  [byte_of_Z v; byte_of_Z (v / 2 ^ 8); byte_of_Z (v / 2 ^ 16); byte_of_Z (v / 2 ^ 24)].

(** The bytes [pos, pos + n) of a buffer (fewer when the buffer ends). *)
Definition slice (buf : list byte) (pos n : nat) : list byte :=
  take n (drop pos buf).

(** The four chunk tags of the repair pass, spelt as in the names of
    offsetFix.h ([findMCNKs], [struct MCIN], [findMDDFandMODF]). *)
Definition tag_MCNK : list byte := String.list_byte_of_string "MCNK".
Definition tag_MCIN : list byte := String.list_byte_of_string "MCIN".
Definition tag_MDDF : list byte := String.list_byte_of_string "MDDF".
Definition tag_MODF : list byte := String.list_byte_of_string "MODF".

(** A chunk located in a buffer: its tag, the position of its header, and the
    length of its payload. *)
Record Chunk := mkChunk { tag : list byte; header_at : nat; payload_len : nat }.

Definition payload_at (c : Chunk) : nat := (header_at c + 8)%nat.
Definition next_position (c : Chunk) : nat := (header_at c + 8 + payload_len c)%nat.

(** Modelled from the spec: [read_chunk] of the ChunkReader (section 4.1 and
    the header layout of section 6), whose code is missing.  The header is 4
    tag bytes and a little-endian uint32 payload length; [None] is
    [TruncatedChunk]: fewer than 8 bytes remain for the header, or fewer than
    [length] bytes for the payload. *)
Definition read_chunk (buf : list byte) (pos : nat) : option Chunk :=
  if decide (pos + 8 ≤ length buf)%nat then
    let n := Z.to_nat (le32 (slice buf (pos + 4) 4)) in
    if decide (pos + 8 + n ≤ length buf)%nat
    then Some (mkChunk (slice buf pos 4) pos n)
    else None
  else None.

(** Modelled from the spec: the top-to-bottom walk of [build_from_scan]
    (section 4.2), whose code is missing: chunks lie back to back from [pos] to
    the end of the buffer.  Every chunk takes at least its 8 header bytes, so
    [length buf - pos] steps of fuel are enough (lemma [scan_from_fuel]). *)
Fixpoint scan_from (fuel : nat) (buf : list byte) (pos : nat) : option (list Chunk) :=
  if decide (length buf ≤ pos)%nat then Some []
  else
    match fuel with
    | O => None
    | S fuel' =>
      match read_chunk buf pos with
      | None => None
      | Some c => cons c <$> scan_from fuel' buf (next_position c)
      end
    end.

Definition scan (buf : list byte) : option (list Chunk) :=
  scan_from (length buf) buf 0.

Definition has_tag (t : list byte) (c : Chunk) : bool :=
  bool_decide (tag c = t).

(** The position of the chunk can be held by a [UInt32]. *)
Definition in_range (c : Chunk) : bool := Z.of_nat (header_at c) <? 2 ^ 32.

(** The first chunk of a scan that carries the tag [t]. *)
Definition find_chunk (t : list byte) (cs : list Chunk) : option Chunk :=
  List.find (has_tag t) cs.

(** An in-place write into the payload of the chunk [c]: [f] gives the new
    payload, the rest of the buffer stays. *)
Definition map_payload (f : list byte → list byte) (buf : list byte) (c : Chunk) : list byte :=
  take (payload_at c) buf
  ++ f (slice buf (payload_at c) (payload_len c))
  ++ drop (next_position c) buf.

(** *** The layout of [MCIN] *)

(** [struct MCIN { UInt32 offset, size, temp1, temp2; }] in the file: four
    little-endian 32-bit fields in declaration order. *)
Definition MCIN_bytes (e : MCIN.t) : list byte :=
  u32_bytes (MCIN.offset e) ++ u32_bytes (MCIN.size e)
  ++ u32_bytes (MCIN.temp1 e) ++ u32_bytes (MCIN.temp2 e).

Definition MCIN_of_bytes (bs : list byte) : MCIN.t :=
  MCIN.mk (le32 (slice bs 0 4)) (le32 (slice bs 4 4))
          (le32 (slice bs 8 4)) (le32 (slice bs 12 4)).

(** The payload of the index chunk: the entries one after the other. *)
Definition index_bytes (es : list MCIN.t) : list byte :=
  concat (MCIN_bytes <$> es).

(** Modelled from the spec: the current-generation codec on the index chunk
    (sections 6 and 8), whose code is missing: decoding reads the 256 entries
    of the 4096-byte payload, the two reserved fields of each entry included;
    encoding writes the entries back in the same layout.  [None] is a payload
    that is not the 4096-byte table. *)
Definition decode_index (payload : list byte) : option (list MCIN.t) :=
  if decide (length payload = 4096%nat)
  then Some ((λ k, MCIN_of_bytes (slice payload (k * 16) 16)) <$> seq 0 256)
  else None.

Definition encode_index (es : list MCIN.t) : list byte := index_bytes es.

(** *** binary32 values in the file *)

Definition sign_bit (s : bool) : Z := if s then 2 ^ 31 else 0.

(** The [float] held by a 32-bit pattern: sign (bit 31), biased exponent
    (bits 30..23), fraction (bits 22..0). *)
Definition f32_of_bits (b : Z) : float32 :=
  let s := (b / 2 ^ 31) mod 2 =? 1 in
  let e := (b / 2 ^ 23) mod 256 in
  let m := b mod 2 ^ 23 in
  if e =? 0 then
    if m =? 0 then S754_zero s else S754_finite s (Z.to_pos m) (-149)
  else if e =? 255 then
    if m =? 0 then S754_infinity s else S754_nan
  else S754_finite s (Z.to_pos (m + 2 ^ 23)) (e - 150).

(** The 32-bit pattern of a [float]; a NaN is written as the quiet NaN. *)
Definition bits_of_f32 (f : float32) : Z :=
  match f with
  | S754_zero s => sign_bit s
  | S754_infinity s => sign_bit s + 255 * 2 ^ 23
  | S754_nan => 255 * 2 ^ 23 + 2 ^ 22
  | S754_finite s m e =>
    if Z.pos m <? 2 ^ 23 then sign_bit s + Z.pos m
    else sign_bit s + (e + 150) * 2 ^ 23 + (Z.pos m - 2 ^ 23)
  end.

Definition read_f32 (bs : list byte) : float32 := f32_of_bits (le32 bs).
Definition f32_bytes (f : float32) : list byte := u32_bytes (bits_of_f32 f).

(** Two floats denote the same number: they are equal, or both are a zero. *)
Definition same_value (a b : float32) : Prop :=
  a = b ∨ ((∃ s, a = S754_zero s) ∧ (∃ s, b = S754_zero s)).

(** *** Placement records *)

Definition Vec3 : Type := float32 * float32 * float32.

(** Modelled from the spec: the size in bytes of a doodad and of an object
    placement record, whose struct declarations are missing (section 3:
    nameIndex uint32, position 3 floats, rotation 3 floats, scale 1 float or
    bounding box 6 floats, uniqueId uint32, flags uint16; section 6: tightly
    packed). *)
Definition doodad_size : nat := 38.
Definition object_size : nat := 58.

(** Modelled from the spec: the three position floats of a record lie after
    its 4-byte nameIndex (section 3). *)
Definition position_of (rec : list byte) : Vec3 :=
  (read_f32 (slice rec 4 4), read_f32 (slice rec 8 4), read_f32 (slice rec 12 4)).

(** Modelled from the spec: step (3) of the OffsetRepairer (section 4.5), the
    body of [fixDoodads] and [fixWMOs], whose code is missing: the delta is
    added to the position field of a placement record; nothing else of the
    record is written. *)
Definition translate_record (delta : Vec3) (rec : list byte) : list byte :=
  let '(px, py, pz) := position_of rec in
  let '(dx, dy, dz) := delta in
  take 4 rec
  ++ f32_bytes (f32_add px dx) ++ f32_bytes (f32_add py dy) ++ f32_bytes (f32_add pz dz)
  ++ drop 16 rec.

(** Modelled from the spec: the same for the first [n] records of a tightly
    packed array (section 6). *)
Fixpoint translate_records (n rec_size : nat) (delta : Vec3) (payload : list byte) : list byte :=
  match n with
  | O => payload
  | S n' =>
    translate_record delta (take rec_size payload)
    ++ translate_records n' rec_size delta (drop rec_size payload)
  end.

(** Modelled from the spec: "add that delta to every placement record's
    position field" (section 4.5): every whole record of a placement chunk. *)
Definition translate_placements (rec_size : nat) (delta : Vec3) (payload : list byte) : list byte :=
  translate_records (length payload / rec_size) rec_size delta payload.

(** Modelled from the spec: the coordinate delta of step (3), whose code is
    missing.  The spec gives no formula for it and does not say where the
    declared origin is kept; here the translation is the three [wdt*Off]
    members of [Offsets], which are zero in the state [main] hands to the
    pass (section 8 gives the delta 0 for an unchanged origin).  That the
    pass translates by zero is thus a choice of this model, not a finding
    about the missing code. *)
Definition originDelta (o : Offsets.t) : Vec3 :=
  (Offsets.wdtXOff o, Offsets.wdtYOff o, Offsets.wdtZOff o).

(** *** The rebuilt index *)

(** Modelled from the spec: [rewrite_into] of the ChunkIndex (section 4.2),
    whose code is missing: the (offset, size) pair of every entry is written
    into the 16-byte slot of the entry; the two reserved fields of the slot
    stay as they are in the file. *)
Definition rewrite_entry (e : MCIN.t) (slot : list byte) : list byte :=
  u32_bytes (MCIN.offset e) ++ u32_bytes (MCIN.size e) ++ drop 8 slot.

Fixpoint rewrite_into (es : list MCIN.t) (payload : list byte) : list byte :=
  match es with
  | [] => payload
  | e :: es' => rewrite_entry e (take 16 payload) ++ rewrite_into es' (drop 16 payload)
  end.

(** Modelled from the spec: what [build_from_scan] records (sections 3 and
    4.2), whose code is missing: entry [k] of the rebuilt index takes the
    position and the payload length of the [k]-th terrain chunk met (the table
    has a fixed capacity: a slot outside its 256 is not written). *)
Definition record_MCNK (k : nat) (c : Chunk) (d : OffsetFixData.t) : OffsetFixData.t :=
  let old := default MCIN.zero (vec_to_list (OffsetFixData.positions d) !! k) in
  OffsetFixData.mk (OffsetFixData.offset d)
    (OffsetFixData.offsetMDDF d) (OffsetFixData.offsetMODF d)
    (vset k (wrap32 (Z.of_nat (header_at c))) (OffsetFixData.positionsMCNK d))
    (vset k (MCIN.mk (wrap32 (Z.of_nat (header_at c))) (wrap32 (Z.of_nat (payload_len c)))
                     (MCIN.temp1 old) (MCIN.temp2 old)) (OffsetFixData.positions d)).

Fixpoint record_MCNKs (k : nat) (cs : list Chunk) (d : OffsetFixData.t) : OffsetFixData.t :=
  match cs with
  | [] => d
  | c :: cs' => record_MCNKs (S k) cs' (record_MCNK k c d)
  end.

(** *** The five steps *)

Module OffsetRepairer.

(** Modelled from the spec: step (1) of the OffsetRepairer (section 4.5), the
    body of [findMCNKs], which is missing: scan for every terrain chunk and
    record its offset and size in the rebuilt index, in encounter order;
    [OffsetOutOfRange] when an offset is out of the range of its 32-bit
    field.  The file is only read. *)
Definition findMCNKs : Step := λ buf d,
  match scan buf with
  | None => Raised TruncatedChunk buf
  | Some cs =>
    let terrain := filter (has_tag tag_MCNK) cs in
    if forallb in_range terrain
    then Done buf (record_MCNKs 0 terrain d)
    else Raised OffsetOutOfRange buf
  end.

(** Modelled from the spec: step (2), the body of [findMDDFandMODF], which is
    missing: scan for the doodad-placement and the object-placement chunk by
    tag and record their offsets; [MissingExpectedChunk] when one is absent,
    [OffsetOutOfRange] as in step (1).  The file is only read. *)
Definition findMDDFandMODF : Step := λ buf d,
  match scan buf with
  | None => Raised TruncatedChunk buf
  | Some cs =>
    match find_chunk tag_MDDF cs, find_chunk tag_MODF cs with
    | Some m, Some w =>
      if in_range m && in_range w
      then Done buf
             (OffsetFixData.mk (OffsetFixData.offset d)
                (wrap32 (Z.of_nat (header_at m))) (wrap32 (Z.of_nat (header_at w)))
                (OffsetFixData.positionsMCNK d) (OffsetFixData.positions d))
      else Raised OffsetOutOfRange buf
    | _, _ => Raised MissingExpectedChunk buf
    end
  end.

(** Modelled from the spec: step (4), the body of [fixMCNKs], which is
    missing: the rebuilt index is written in place into the payload of the
    index chunk, whose payload is the table of 256 entries of 16 bytes
    (section 6); [MissingExpectedChunk] when the file has no index chunk or
    the payload of the chunk is longer than the 4096 bytes of the table,
    [TruncatedChunk] when it is shorter. *)
Definition fixMCNKs : Step := λ buf d,
  match scan buf with
  | None => Raised TruncatedChunk buf
  | Some cs =>
    match find_chunk tag_MCIN cs with
    | None => Raised MissingExpectedChunk buf
    | Some c =>
      if decide (payload_len c < 4096)%nat then Raised TruncatedChunk buf
      else if decide (4096 < payload_len c)%nat then Raised MissingExpectedChunk buf
      else Done (map_payload (rewrite_into (vec_to_list (OffsetFixData.positions d))) buf c) d
    end
  end.

(** Modelled from the spec: step (3) applied to the placement chunk recorded
    at offset [at_]: [TruncatedChunk] when no whole chunk lies there,
    [MissingExpectedChunk] when the chunk there does not carry the expected
    tag. *)
Definition fix_placements (t : list byte) (rec_size : nat) (at_ : Z) : Step := λ buf d,
  match read_chunk buf (Z.to_nat at_) with
  | None => Raised TruncatedChunk buf
  | Some c =>
    if has_tag t c
    then Done (map_payload (translate_placements rec_size
                              (originDelta (OffsetFixData.offset d))) buf c) d
    else Raised MissingExpectedChunk buf
  end.

Definition fixDoodads : Step := λ buf d,
  fix_placements tag_MDDF doodad_size (OffsetFixData.offsetMDDF d) buf d.

Definition fixWMOs : Step := λ buf d,
  fix_placements tag_MODF object_size (OffsetFixData.offsetMODF d) buf d.

Definition ops : RepairOps :=
  Build_RepairOps findMCNKs findMDDFandMODF fixMCNKs fixDoodads fixWMOs.

End OffsetRepairer.

(** ** Test data *)

Definition chunk_bytes (t : string) (payload : list byte) : list byte :=
  String.list_byte_of_string t ++ u32_bytes (Z.of_nat (length payload)) ++ payload.

(** A small area file: a stale index, two terrain chunks, one doodad and one
    object placement. *)
Definition sample_file : list byte :=
  chunk_bytes "MCIN" (replicate 4096 xff)
  ++ chunk_bytes "MCNK" [x01; x02; x03]
  ++ chunk_bytes "MDDF" (replicate 4 x07 ++ u32_bytes (bits_of_f32 (S754_zero true))
                         ++ replicate 30 x09)
  ++ chunk_bytes "MCNK" []
  ++ chunk_bytes "MODF" (replicate 58 x05).

Definition sample_fs : FS :=
  mkFS {[ "in.adt" := sample_file ]} ∅.

(** The file and the state the pass leaves for [sample_file]. *)
Definition sample_repaired : list byte :=
  match OffsetFix.result (OffsetFix.try_block OffsetRepairer.ops sample_file OffsetFixData.zero) with
  | Done buf _ => buf
  | Raised _ buf => buf
  end.

Definition sample_state : OffsetFixData.t :=
  match OffsetFix.result (OffsetFix.try_block OffsetRepairer.ops sample_file OffsetFixData.zero) with
  | Done _ d => d
  | Raised _ _ => OffsetFixData.zero
  end.

Definition repaired_fs : FS :=
  mkFS {[ "fixed.adt" := sample_repaired ]} ∅.

(** [sample_fs] with an output path that cannot be created. *)
Definition locked_fs : FS :=
  mkFS {[ "in.adt" := sample_file ]} {[ "out.adt" ]}.

(** A repair whose doodad step throws after the index has been rewritten. *)
Definition ops_doodads_throw : RepairOps :=
  Build_RepairOps OffsetRepairer.findMCNKs OffsetRepairer.findMDDFandMODF
    OffsetRepairer.fixMCNKs
    (λ buf _, Raised (StdException "bad doodad placement") buf)
    OffsetRepairer.fixWMOs.

(** ** The legacy world table *)

(** Modelled from the spec: the legacy world table (sections 4.3 and 6), whose
    class [WdtAlpha] is missing: the combined offset table holds one uint32
    offset per tile of the 64 x 64 grid, 0 meaning "tile absent", and the two
    model-name lists. *)
Record LegacyWdt := mkLegacyWdt {
  main_offsets : list Z;
  mdnm_names : list string;
  monm_names : list string
}.

(** Modelled from the spec: [get_existing_tile_coordinates] (section 4.3),
    the missing [getExistingAdtsNumbers]: the tile numbers, in row-major
    order, whose offset is not 0. *)
Definition existing_tiles (w : LegacyWdt) : list Z :=
  fst <$> filter (λ p, bool_decide (p.2 ≠ 0))
            (zip (Z.of_nat <$> seq 0 (length (main_offsets w))) (main_offsets w)).

(** A tile [(row, col)] of the grid as a tile number. *)
Definition tile_number (row col : Z) : Z := row * 64 + col.

(** Modelled from the spec: the wowfiles interface over legacy world tables
    kept by name, its getters as above; what an area file holds does not
    matter here, so an area is the pair of its offset and tile number.  Every
    tile [existing_tiles] lists lies inside the offset table (lemma
    [existing_tiles_elem]), so no read outside it occurs; [past_the_end] is
    given the value [None]. *)
Definition legacy_files (disk : gmap string LegacyWdt) : WowFiles := {|
  WdtAlpha := LegacyWdt;
  Wdt := list Z;
  AdtAlpha := Z * Z;
  AdtLk := Z * Z;
  WdtAlpha_new := λ name, disk !! name;
  toWdt := λ w, Some (existing_tiles w);
  getExistingAdtsNumbers := existing_tiles;
  getAdtOffsetsInMain := main_offsets;
  getMdnmFileNames := mdnm_names;
  getMonmFileNames := monm_names;
  AdtAlpha_new := λ _ off n, Some (off, n);
  toAdtLk := λ a _ _, Some a;
  past_the_end := λ _ _, None
|}.

(** A legacy world table with the tiles (12,34) and (12,35) only. *)
Definition sample_wdt : LegacyWdt :=
  mkLegacyWdt (replicate 802 0 ++ [4096; 8192] ++ replicate 3292 0) [] [].

Definition sample_disk : gmap string LegacyWdt := {[ "world.wdt" := sample_wdt ]}.

(** ** Placement records in the codec *)




(** ** Notions used by the statements and their proofs *)

Definition all_steps : list StepName :=
  [FindMCNKs; FindMDDFandMODF; FixMCNKs; FixDoodads; FixWMOs].

(** The three fix steps, run on what the two scans left. *)
Definition fix_block (ops : RepairOps) (buf : list byte) (d : OffsetFixData.t) : Result :=
  OffsetFix.result
    (OffsetFix.call FixWMOs (fixWMOs ops)
      (OffsetFix.call FixDoodads (fixDoodads ops)
        (OffsetFix.call FixMCNKs (fixMCNKs ops) (OffsetFix.start buf d)))).



(** The offset and the size of the [k]-th terrain chunk of a scan; zero when
    the scan met fewer terrain chunks. *)
Definition slot_of (terrain : list Chunk) (k : nat) : Z * Z :=
  match terrain !! k with
  | Some c => (Z.of_nat (header_at c), Z.of_nat (payload_len c))
  | None => (0, 0)
  end.

(** The five ways the repair driver ends. *)
Inductive Ending (ops : RepairOps) (argv : list string) (fs : FS) : OffsetFix.Outcome → Prop :=
  | end_usage :
      (length argv < 3)%nat →
      Ending ops argv fs
        (OffsetFix.mkOutcome 1 fs ("Usage: offsetFix <input.wdt> <output.wdt>" +:+ endl) "" [])
  | end_no_input :
      (3 ≤ length argv)%nat →
      open_rw fs (nth 1 argv "") = None →
      Ending ops argv fs
        (OffsetFix.mkOutcome 1 fs ("Error opening file: " +:+ nth 1 argv "" +:+ endl) "" [])
  | end_raised zoneFile e buf :
      (3 ≤ length argv)%nat →
      open_rw fs (nth 1 argv "") = Some zoneFile →
      OffsetFix.result (OffsetFix.try_block ops zoneFile OffsetFixData.zero) = Raised e buf →
      Ending ops argv fs
        (OffsetFix.mkOutcome 1 (store fs (nth 1 argv "") buf)
           ("Error processing file: " +:+ what e +:+ endl) ""
           (OffsetFix.calls (OffsetFix.try_block ops zoneFile OffsetFixData.zero)))
  | end_no_output zoneFile buf d :
      (3 ≤ length argv)%nat →
      open_rw fs (nth 1 argv "") = Some zoneFile →
      OffsetFix.result (OffsetFix.try_block ops zoneFile OffsetFixData.zero) = Done buf d →
      nth 2 argv "" ∈ readonly fs →
      Ending ops argv fs
        (OffsetFix.mkOutcome 1 (store fs (nth 1 argv "") buf)
           ("Error creating output file: " +:+ nth 2 argv "" +:+ endl) ""
           (OffsetFix.calls (OffsetFix.try_block ops zoneFile OffsetFixData.zero)))
  | end_success zoneFile buf d :
      (3 ≤ length argv)%nat →
      open_rw fs (nth 1 argv "") = Some zoneFile →
      OffsetFix.result (OffsetFix.try_block ops zoneFile OffsetFixData.zero) = Done buf d →
      nth 2 argv "" ∉ readonly fs →
      Ending ops argv fs
        (OffsetFix.mkOutcome 0
           (store (mkFS (<[nth 2 argv "" := []]> (<[nth 1 argv "" := buf]> (files fs)))
                        (readonly fs))
                  (nth 2 argv "")
                  (default [] (<[nth 2 argv "" := []]> (<[nth 1 argv "" := buf]> (files fs))
                               !! nth 1 argv "")))
           ""
           ("Successfully processed " +:+ nth 1 argv "" +:+ endl +:+
            "Output saved to " +:+ nth 2 argv "" +:+ endl)
           (OffsetFix.calls (OffsetFix.try_block ops zoneFile OffsetFixData.zero))).

(** [buf'] is [buf] with the bytes [a, b) possibly changed. *)
Definition agree_outside (a b : nat) (buf buf' : list byte) : Prop :=
  length buf' = length buf
  ∧ ∀ i, (i < a ∨ b ≤ i)%nat → buf' !! i = buf !! i.

(** A float that a 32-bit pattern can hold and that reads back as itself. *)
Definition canonical32 (f : float32) : Prop :=
  f32_of_bits (bits_of_f32 f) = f ∧ 0 ≤ bits_of_f32 f < 2 ^ 32.

Definition zero_delta : Vec3 := (f32_zero, f32_zero, f32_zero).

(** Apply the [k]-th function of [gs] to the [k]-th block of [s] bytes. *)
Fixpoint map_blocks (gs : list (list byte → list byte)) (s : nat) (p : list byte) : list byte :=
  match gs with
  | [] => p
  | g :: gs' => g (take s p) ++ map_blocks gs' s (drop s p)
  end.

(** [g] maps a block of [s] bytes to a block of [s] bytes. *)
Definition block_fun (s : nat) (g : list byte → list byte) : Prop :=
  ∀ b, length b = s → length (g b) = s.

(** What the two scans leave in the repair state. *)
Definition scanned_data (cs : list Chunk) (m w : Chunk) : OffsetFixData.t :=
  let d := record_MCNKs 0 (filter (has_tag tag_MCNK) cs) OffsetFixData.zero in
  OffsetFixData.mk (OffsetFixData.offset d)
    (wrap32 (Z.of_nat (header_at m))) (wrap32 (Z.of_nat (header_at w)))
    (OffsetFixData.positionsMCNK d) (OffsetFixData.positions d).

(** What the three fix steps leave in the file. *)
Definition repaired (buf : list byte) (d : OffsetFixData.t) (cI m w : Chunk) : list byte :=
  map_payload (translate_placements object_size zero_delta)
    (map_payload (translate_placements doodad_size zero_delta)
      (map_payload (rewrite_into (vec_to_list (OffsetFixData.positions d))) buf cI) m) w.

(** A file the pass can repair: made of whole chunks [cs], with an index
    chunk [cI] of 4096 bytes and the placement chunks [m] and [w],
    every recorded offset in the range of a [UInt32]. *)
Definition well_formed (buf : list byte) (cs : list Chunk) (cI m w : Chunk) : Prop :=
  scan buf = Some cs
  ∧ find_chunk tag_MCIN cs = Some cI
  ∧ find_chunk tag_MDDF cs = Some m
  ∧ find_chunk tag_MODF cs = Some w
  ∧ payload_len cI = 4096%nat
  ∧ forallb in_range (filter (has_tag tag_MCNK) cs) = true
  ∧ in_range m = true
  ∧ in_range w = true.

(** ** Notions used by the statements about the conversion driver *)

(** [f] is the area file the loop body writes for tile [n]: the legacy area
    read at the offset the table gives for [n], converted with the two name
    lists of the world table. *)
Definition tile_file {W : WowFiles} (wdtName : string) (w : WdtAlpha) (n : Z)
    (f : Fixes.Written) : Prop :=
  ∃ off a lk,
    Fixes.at_index (getAdtOffsetsInMain w) n = Some off
    ∧ AdtAlpha_new wdtName off n = Some a
    ∧ toAdtLk a (getMdnmFileNames w) (getMonmFileNames w) = Some lk
    ∧ f = Fixes.AdtFile n lk.

(** A test double of the wowfiles interface: the world table lists the tiles
    [nums] with the offsets [offs]; an area at offset 0 cannot be read; a read
    outside the offsets gives [beyond]. *)
Definition scripted_files (nums offs : list Z) (beyond : list Z → Z → option Z) :
    WowFiles := {|
  WdtAlpha := unit;
  Wdt := unit;
  AdtAlpha := Z * Z;
  AdtLk := Z * Z;
  WdtAlpha_new := λ _, Some tt;
  toWdt := λ _, Some tt;
  getExistingAdtsNumbers := λ _, nums;
  getAdtOffsetsInMain := λ _, offs;
  getMdnmFileNames := λ _, [];
  getMonmFileNames := λ _, [];
  AdtAlpha_new := λ _ off n, if decide (off = 0) then None else Some (off, n);
  toAdtLk := λ a _ _, Some a;
  past_the_end := beyond
|}.

(** * Proofs *)

(** ** The repair driver *)

Lemma try_block_cases (ops : RepairOps) (buf : list byte) (d : OffsetFixData.t) :
  let r := OffsetFix.try_block ops buf d in
  (∃ e b, findMCNKs ops buf d = Raised e b
      ∧ OffsetFix.result r = Raised e b ∧ OffsetFix.calls r = [FindMCNKs])
  ∨ (∃ b1 d1, findMCNKs ops buf d = Done b1 d1 ∧
      ((∃ e b, findMDDFandMODF ops b1 d1 = Raised e b
          ∧ OffsetFix.result r = Raised e b
          ∧ OffsetFix.calls r = [FindMCNKs; FindMDDFandMODF])
       ∨ (∃ b2 d2, findMDDFandMODF ops b1 d1 = Done b2 d2
          ∧ OffsetFix.result r = fix_block ops b2 d2
          ∧ [FindMCNKs; FindMDDFandMODF; FixMCNKs] `prefix_of` OffsetFix.calls r
          ∧ OffsetFix.calls r `prefix_of` all_steps
          ∧ (∀ b d', OffsetFix.result r = Done b d' → OffsetFix.calls r = all_steps)))).
Proof.
  unfold OffsetFix.try_block, fix_block, OffsetFix.call, OffsetFix.start, all_steps; simpl.
  destruct (findMCNKs ops buf d) as [b1 d1|e b] eqn:E1; simpl; [right|left; eauto].
  exists b1, d1. split. { reflexivity. }
  destruct (findMDDFandMODF ops b1 d1) as [b2 d2|e b] eqn:E2; simpl; [right|left; eauto].
  exists b2, d2. split. { reflexivity. }
  destruct (fixMCNKs ops b2 d2) as [b3 d3|e b] eqn:E3; simpl.
  2:{ split_and!; [done | by exists [] | by exists [FixDoodads; FixWMOs] | done]. }
  destruct (fixDoodads ops b3 d3) as [b4 d4|e b] eqn:E4; simpl.
  2:{ split_and!; [done | by exists [FixDoodads] | by exists [FixWMOs] | done]. }
  split_and!; [done | by exists [FixDoodads; FixWMOs] | by exists [] | done].
Qed.

Lemma main_ending (ops : RepairOps) (argv : list string) (fs : FS) :
  Ending ops argv fs (OffsetFix.main ops argv fs).
Proof.
  unfold OffsetFix.main.
  destruct (length argv <? 3)%nat eqn:Hargc.
  { apply Nat.ltb_lt in Hargc. by constructor. }
  apply Nat.ltb_ge in Hargc.
  destruct (open_rw fs (nth 1 argv "")) as [zoneFile|] eqn:Hopen; [|by constructor].
  destruct (OffsetFix.result _) as [buf d|e buf] eqn:Hres; [|by econstructor].
  unfold open_w, open_r; simpl.
  destruct (decide (nth 2 argv "" ∈ readonly fs)); simpl; by econstructor.
Qed.



(** C5.  Exit status of the repair driver.  It exits 0 or 1; a non-zero exit
    comes with text on the standard error stream and nothing on the standard
    output; too few arguments, an input file that cannot be opened, an
    exception thrown by any step of the pass (truncated chunk, missing
    expected chunk, offset out of range, ...) and an output file that cannot
    be created each give exit 1 and their own message on the standard error
    stream; when the file opens, the pass returns and the output can be
    created, the exit status is 0 and nothing is written to the standard error
    stream. *)
Theorem repair_exit_status (ops : RepairOps) (argv : list string) (fs : FS) :
  let o := OffsetFix.main ops argv fs in
  (OffsetFix.exit_code o = 0 ∨ OffsetFix.exit_code o = 1)
  ∧ (OffsetFix.exit_code o ≠ 0 → OffsetFix.cerr o ≠ "" ∧ OffsetFix.cout o = "")
  ∧ ((length argv < 3)%nat →
       OffsetFix.exit_code o = 1
       ∧ OffsetFix.cerr o = "Usage: offsetFix <input.wdt> <output.wdt>" +:+ endl)
  ∧ ((3 ≤ length argv)%nat → open_rw fs (nth 1 argv "") = None →
       OffsetFix.exit_code o = 1
       ∧ OffsetFix.cerr o = "Error opening file: " +:+ nth 1 argv "" +:+ endl)
  ∧ (∀ zoneFile e buf,
       (3 ≤ length argv)%nat → open_rw fs (nth 1 argv "") = Some zoneFile →
       OffsetFix.result (OffsetFix.try_block ops zoneFile OffsetFixData.zero) = Raised e buf →
       OffsetFix.exit_code o = 1
       ∧ OffsetFix.cerr o = "Error processing file: " +:+ what e +:+ endl)
  ∧ (∀ zoneFile buf d,
       (3 ≤ length argv)%nat → open_rw fs (nth 1 argv "") = Some zoneFile →
       OffsetFix.result (OffsetFix.try_block ops zoneFile OffsetFixData.zero) = Done buf d →
       nth 2 argv "" ∈ readonly fs →
       OffsetFix.exit_code o = 1
       ∧ OffsetFix.cerr o = "Error creating output file: " +:+ nth 2 argv "" +:+ endl)
  ∧ (∀ zoneFile buf d,
       (3 ≤ length argv)%nat → open_rw fs (nth 1 argv "") = Some zoneFile →
       OffsetFix.result (OffsetFix.try_block ops zoneFile OffsetFixData.zero) = Done buf d →
       nth 2 argv "" ∉ readonly fs →
       OffsetFix.exit_code o = 0 ∧ OffsetFix.cerr o = "").
Proof.
  simpl.
  destruct (main_ending ops argv fs) as
    [Hargc | Hargc Hopen | zoneFile e buf Hargc Hopen Hres
     | zoneFile buf d Hargc Hopen Hres Hro | zoneFile buf d Hargc Hopen Hres Hro]; simpl.
  all: split_and!; try (by auto); try (intros; lia); try congruence.
  all: intros; simplify_eq; try done; try lia.
  all: split; [done | congruence].
Qed.

(** C1, as amended.  When the repair driver exits non-zero, no file other
    than the input file is created or changed, so the output path is
    untouched; the input file itself is patched in place: after an exception
    in the pass it holds the bytes the steps had written when the exception
    was thrown, and when the pass has returned but the output cannot be
    created it holds the repaired bytes. *)
Theorem repair_failure_effects (ops : RepairOps) (argv : list string) (fs : FS) :
  let o := OffsetFix.main ops argv fs in
  OffsetFix.exit_code o ≠ 0 →
  readonly (OffsetFix.fs_after o) = readonly fs
  ∧ (∀ p, p ≠ nth 1 argv "" → files (OffsetFix.fs_after o) !! p = files fs !! p)
  ∧ (∀ zoneFile e buf,
       (3 ≤ length argv)%nat → open_rw fs (nth 1 argv "") = Some zoneFile →
       OffsetFix.result (OffsetFix.try_block ops zoneFile OffsetFixData.zero) = Raised e buf →
       files (OffsetFix.fs_after o) !! nth 1 argv "" = Some buf)
  ∧ (∀ zoneFile buf d,
       (3 ≤ length argv)%nat → open_rw fs (nth 1 argv "") = Some zoneFile →
       OffsetFix.result (OffsetFix.try_block ops zoneFile OffsetFixData.zero) = Done buf d →
       files (OffsetFix.fs_after o) !! nth 1 argv "" = Some buf).
Proof.
  simpl.
  destruct (main_ending ops argv fs) as
    [Hargc | Hargc Hopen | zoneFile e buf Hargc Hopen Hres
     | zoneFile buf d Hargc Hopen Hres Hro | zoneFile buf d Hargc Hopen Hres Hro]; simpl.
  all: intros Hexit; try done.
  all: split_and!; try done.
  all: try (intros; lia); try congruence.
  all: try (intros p Hp; by rewrite lookup_insert_ne).
  - intros z e0 b0 _ Hz Hr. rewrite Hopen in Hz. injection Hz as <-.
    rewrite Hres in Hr. injection Hr as <- <-. apply lookup_insert_eq.
  - intros z b0 d0 _ Hz Hr. rewrite Hopen in Hz. injection Hz as <-.
    rewrite Hres in Hr. injection Hr as <- <-. apply lookup_insert_eq.
Qed.

(** With two paths, a run that exits 0 leaves the bytes the pass returned in
    both files, whatever the output path held. *)
Lemma repair_output_is_copy (ops : RepairOps) (argv : list string) (fs : FS) :
  let o := OffsetFix.main ops argv fs in
  OffsetFix.exit_code o = 0 →
  nth 1 argv "" ≠ nth 2 argv "" →
  ∃ zoneFile buf d,
    open_rw fs (nth 1 argv "") = Some zoneFile
    ∧ OffsetFix.result (OffsetFix.try_block ops zoneFile OffsetFixData.zero) = Done buf d
    ∧ files (OffsetFix.fs_after o) !! nth 1 argv "" = Some buf
    ∧ files (OffsetFix.fs_after o) !! nth 2 argv "" = Some buf.
Proof.
  simpl.
  destruct (main_ending ops argv fs) as
    [Hargc | Hargc Hopen | zoneFile e buf Hargc Hopen Hres
     | zoneFile buf d Hargc Hopen Hres Hro | zoneFile buf d Hargc Hopen Hres Hro]; simpl.
  all: intros Hexit Hne; try done.
  exists zoneFile, buf, d. split_and!; try done.
  - rewrite lookup_insert_ne, lookup_insert_ne, lookup_insert_eq; done.
  - rewrite lookup_insert_eq, lookup_insert_ne, lookup_insert_eq; done.
Qed.

(** C1 fails as stated.  There is no output buffer: the fix steps write to
    the input file.  A run whose output file cannot be created exits 1 with
    the index of the input file already rewritten; and a pass whose doodad
    step throws exits 1, after the index step, with the input file no longer
    holding the bytes it held before the run. *)
Lemma repair_failure_keeps_partial_writes :
  let unwritable :=
    OffsetFix.main OffsetRepairer.ops ["offsetFix"; "in.adt"; "out.adt"] locked_fs in
  let thrown :=
    OffsetFix.main ops_doodads_throw ["offsetFix"; "in.adt"; "out.adt"] sample_fs in
  files locked_fs !! "in.adt" = Some sample_file
  ∧ files sample_fs !! "in.adt" = Some sample_file
  ∧ OffsetFix.exit_code unwritable = 1
  ∧ files (OffsetFix.fs_after unwritable) !! "in.adt" = Some sample_repaired
  ∧ sample_repaired ≠ sample_file
  ∧ OffsetFix.exit_code thrown = 1
  ∧ OffsetFix.steps_called thrown = [FindMCNKs; FindMDDFandMODF; FixMCNKs; FixDoodads]
  ∧ files (OffsetFix.fs_after thrown) !! "in.adt" ≠ Some sample_file.
Proof.
  vm_compute. split_and!; done.
Qed.

(** C10 at the failing input.  With the same path for input and output the
    driver exits 0 and leaves that file empty, although the pass had returned
    the repaired bytes: the output stream truncates the file before the input
    stream reads it. *)
Theorem repair_same_path_truncates :
  let o := OffsetFix.main OffsetRepairer.ops ["offsetFix"; "in.adt"; "in.adt"] sample_fs in
  OffsetFix.exit_code o = 0
  ∧ files (OffsetFix.fs_after o) !! "in.adt" = Some []
  ∧ ∃ buf d,
      OffsetFix.result (OffsetFix.try_block OffsetRepairer.ops sample_file OffsetFixData.zero)
      = Done buf d ∧ length buf = length sample_file.
Proof.
  split_and!; [by vm_compute | by vm_compute |].
  eexists _, _. split; [vm_compute; reflexivity | by vm_compute].
Qed.

(** ** The conversion driver *)

Section Conversion.
Context {W : WowFiles}.

(** The loop writes one area file per entry of [adtsNums], in order, when
    every tile converts. *)
Lemma convert_adts_writes (wdtName : string) (w : WdtAlpha) (nums : list Z) :
  (∀ n, n ∈ nums → Fixes.tile_converts wdtName w n) →
  ∀ out, ∃ ws,
    Fixes.convert_adts wdtName (getAdtOffsetsInMain w) (getMdnmFileNames w)
      (getMonmFileNames w) nums out
    = Fixes.mkConversion (Some 0) (out ++ ws) ""
    ∧ Forall2 (λ n f, ∃ lk, f = Fixes.AdtFile n lk) nums ws.
Proof.
  induction nums as [|n nums IH]; intros Hconv out; simpl.
  - exists []. by rewrite app_nil_r.
  - destruct (Hconv n) as (off & a & lk & -> & -> & ->); [by left|].
    destruct (IH (λ m Hm, Hconv m (list_elem_of_further _ _ _ Hm))
                 (out ++ [Fixes.AdtFile n lk])) as (ws & -> & Hws).
    exists (Fixes.AdtFile n lk :: ws). split.
    + by rewrite <- app_assoc.
    + constructor; eauto.
Qed.

Lemma area_files_count (n : Z) (nums : list Z) (ws : list Fixes.Written) :
  Forall2 (λ m f, ∃ lk, f = Fixes.AdtFile m lk) nums ws →
  filter Fixes.is_wdt ws = []
  ∧ length (filter (Fixes.is_adt n) ws) = length (filter (λ m, m = n) nums).
Proof.
  induction 1 as [|m f nums ws [lk ->] _ [IH1 IH2]]; [done|].
  split.
  - rewrite filter_cons_False; [done | simpl; auto].
  - destruct (decide (m = n)) as [->|Hne].
    + rewrite !filter_cons_True; [simpl; by rewrite IH2 | done |].
      simpl. by apply bool_decide_pack.
    + rewrite !filter_cons_False; [done | done |].
      simpl. by intros ?%bool_decide_unpack.
Qed.

Lemma count_in_NoDup (n : Z) (nums : list Z) :
  NoDup nums →
  length (filter (λ m, m = n) nums) = if decide (n ∈ nums) then 1%nat else 0%nat.
Proof.
  induction 1 as [|m nums Hm _ IH]; [done|].
  rewrite filter_cons. destruct (decide (m = n)) as [->|Hne]; simpl.
  - rewrite IH. rewrite decide_False by done. rewrite decide_True by (by left). done.
  - rewrite IH. destruct (decide (n ∈ nums)).
    + rewrite decide_True by (by right). done.
    + rewrite decide_False; [done|]. intros [?|?]%elem_of_cons; congruence.
Qed.

(** C3.  Files of a conversion.  When the legacy world table loads and
    converts, the list of existing tile numbers holds no tile twice and every
    listed tile converts, the conversion driver exits 0 having written
    exactly one world-table file and, for every tile number, one area file
    when the tile is listed as existing and none otherwise. *)
Theorem conversion_writes_one_file_per_tile (argv : list string) (w : WdtAlpha) (wdt : Wdt) :
  (2 ≤ length argv)%nat →
  WdtAlpha_new (nth 1 argv "") = Some w →
  toWdt w = Some wdt →
  NoDup (getExistingAdtsNumbers w) →
  (∀ n, n ∈ getExistingAdtsNumbers w → Fixes.tile_converts (nth 1 argv "") w n) →
  let c := Fixes.main argv in
  Fixes.status c = Some 0
  ∧ Fixes.wdt_files c = 1%nat
  ∧ ∀ n, Fixes.adt_files n c
         = if decide (n ∈ getExistingAdtsNumbers w) then 1%nat else 0%nat.
Proof.
  intros Hargc Hnew Hwdt Hnodup Hconv. simpl. unfold Fixes.main.
  apply Nat.ltb_ge in Hargc. rewrite Hargc, Hnew, Hwdt.
  destruct (convert_adts_writes _ _ _ Hconv [Fixes.WdtFile wdt]) as (ws & -> & Hws).
  unfold Fixes.wdt_files, Fixes.adt_files.
  cbn [Fixes.written Fixes.status app].
  split_and!; [done | |].
  - destruct (area_files_count 0 _ _ Hws) as [Hnone _].
    rewrite filter_cons_True by done. by rewrite Hnone.
  - intros n. destruct (area_files_count n _ _ Hws) as [_ Hn].
    rewrite filter_cons_False by (simpl; auto). rewrite Hn.
    by apply count_in_NoDup.
Qed.
End Conversion.

(** ** Bytes and 32-bit fields *)

Lemma Z_of_byte_range (b : byte) : 0 ≤ Z_of_byte b < 256.
Proof.
  unfold Z_of_byte. pose proof (Byte.to_N_bounded b). lia.
Qed.

Lemma Z_of_byte_of_Z (z : Z) : Z_of_byte (byte_of_Z z) = z mod 256.
Proof.
  unfold Z_of_byte, byte_of_Z.
  assert (Hr : 0 ≤ z mod 256 < 256) by (apply Z.mod_pos_bound; lia).
  destruct (Byte.of_N (Z.to_N (z mod 256))) as [b|] eqn:Hb.
  - apply Byte.to_of_N in Hb. rewrite Hb. lia.
  - apply Byte.of_N_None_iff in Hb. lia.
Qed.

Lemma byte_of_Z_of_byte (b : byte) : byte_of_Z (Z_of_byte b) = b.
Proof.
  unfold byte_of_Z. rewrite Z.mod_small by apply Z_of_byte_range.
  unfold Z_of_byte. rewrite N2Z.id, Byte.of_to_N. done.
Qed.

Lemma length_u32_bytes (v : Z) : length (u32_bytes v) = 4%nat.
Proof. done. Qed.

Lemma le32_u32_bytes (v : Z) : le32 (u32_bytes v) = wrap32 v.
Proof.
  unfold le32, u32_bytes, wrap32; simpl. rewrite !Z_of_byte_of_Z.
  change (2 ^ 8) with 256. change (2 ^ 16) with (256 * 256).
  change (2 ^ 24) with (256 * 256 * 256). change (2 ^ 32) with 4294967296.
  rewrite <- !Z.div_div by lia.
  Z.div_mod_to_equations. lia.
Qed.

Lemma u32_bytes_le32 (bs : list byte) : length bs = 4%nat → u32_bytes (le32 bs) = bs.
Proof.
  destruct bs as [|a [|b [|c [|d [|]]]]]; try done. intros _.
  unfold le32, u32_bytes; simpl.
  pose proof (Z_of_byte_range a). pose proof (Z_of_byte_range b).
  pose proof (Z_of_byte_range c). pose proof (Z_of_byte_range d).
  assert (Hbyte : ∀ x q, 0 ≤ x < 256 → byte_of_Z (x + 256 * q) = byte_of_Z x).
  { intros x q Hx. unfold byte_of_Z.
    replace (x + 256 * q) with (x + q * 256) by lia.
    by rewrite Z.mod_add by lia. }
  assert (Hdiv : ∀ x q, 0 ≤ x < 256 → (x + 256 * q) / 256 = q).
  { intros x q Hx. replace (x + 256 * q) with (x + q * 256) by lia.
    rewrite Z.div_add by lia. rewrite Z.div_small; lia. }
  change (2 ^ 8) with 256. change (2 ^ 16) with (256 * 256).
  change (2 ^ 24) with (256 * 256 * 256).
  rewrite <- !Z.div_div by lia.
  rewrite !Hdiv by done. rewrite !Hbyte by done.
  by rewrite !byte_of_Z_of_byte.
Qed.

Lemma le32_range (bs : list byte) : length bs = 4%nat → 0 ≤ le32 bs < 2 ^ 32.
Proof.
  intros H. rewrite <- (u32_bytes_le32 bs H) at 1 2. rewrite le32_u32_bytes.
  unfold wrap32. apply Z.mod_pos_bound. lia.
Qed.

Lemma vec_to_list_vset {A} {n : nat} (k : nat) (v : A) (a : vec A n) :
  vec_to_list (vset k v a) = <[k := v]> (vec_to_list a).
Proof.
  unfold vset. destruct (decide (k < n)%nat) as [H|H].
  - rewrite vec_to_list_insert. by rewrite fin_to_nat_to_fin.
  - rewrite list_insert_ge; [done|]. rewrite length_vec_to_list. lia.
Qed.

(** ** Slices *)

Lemma length_slice (buf : list byte) (pos n : nat) :
  (pos + n ≤ length buf)%nat → length (slice buf pos n) = n.
Proof. intros. unfold slice. rewrite length_take, length_drop. lia. Qed.

Lemma slice_lookup (buf : list byte) (pos n i : nat) :
  slice buf pos n !! i = if decide (i < n)%nat then buf !! (pos + i)%nat else None.
Proof.
  unfold slice. destruct (decide (i < n)%nat).
  - rewrite lookup_take_lt by done. by rewrite lookup_drop.
  - rewrite lookup_take_ge; [done | lia].
Qed.

(** Two buffers that agree on [pos, pos + n) have the same slice there. *)
Lemma slice_ext (buf buf' : list byte) (pos n : nat) :
  (∀ i, (pos ≤ i < pos + n)%nat → buf' !! i = buf !! i) →
  slice buf' pos n = slice buf pos n.
Proof.
  intros H. apply list_eq. intros i. rewrite !slice_lookup.
  destruct (decide (i < n)%nat); [apply H; lia | done].
Qed.

Lemma slice_slice (buf : list byte) (pos n q m : nat) :
  (q + m ≤ n)%nat → slice (slice buf pos n) q m = slice buf (pos + q) m.
Proof.
  intros. apply list_eq. intros i. rewrite !slice_lookup.
  destruct (decide (i < m)%nat); [|done].
  rewrite decide_True by lia. f_equal. lia.
Qed.

(** ** Chunks *)

Lemma read_chunk_Some (buf : list byte) (pos : nat) (c : Chunk) :
  read_chunk buf pos = Some c →
  header_at c = pos
  ∧ (next_position c ≤ length buf)%nat
  ∧ tag c = slice buf pos 4
  ∧ payload_len c = Z.to_nat (le32 (slice buf (pos + 4) 4)).
Proof.
  unfold read_chunk, next_position. intros H.
  repeat case_decide; simplify_eq; simpl. split_and!; done || lia.
Qed.

Lemma read_chunk_ext (buf buf' : list byte) (pos : nat) :
  length buf' = length buf →
  (∀ i, (pos ≤ i < pos + 8)%nat → buf' !! i = buf !! i) →
  read_chunk buf' pos = read_chunk buf pos.
Proof.
  intros Hlen H. unfold read_chunk. rewrite Hlen.
  rewrite (slice_ext buf buf' (pos + 4) 4) by (intros; apply H; lia).
  rewrite (slice_ext buf buf' pos 4) by (intros; apply H; lia).
  done.
Qed.

Lemma scan_from_chunk (fuel : nat) (buf : list byte) (pos : nat) (cs : list Chunk) (c : Chunk) :
  scan_from fuel buf pos = Some cs → c ∈ cs →
  (pos ≤ header_at c)%nat ∧ read_chunk buf (header_at c) = Some c.
Proof.
  revert pos cs. induction fuel as [|fuel IH]; intros pos cs; simpl.
  - case_decide; intros; simplify_eq. by apply elem_of_nil in H1.
  - case_decide; [intros; simplify_eq; by apply elem_of_nil in H1|].
    destruct (read_chunk buf pos) as [c0|] eqn:Hc0; [|done].
    destruct (scan_from fuel buf (next_position c0)) as [rest|] eqn:Hrest; [|done].
    simpl. intros [= <-] [->|Hin]%elem_of_cons.
    + destruct (read_chunk_Some _ _ _ Hc0) as (-> & _). done.
    + destruct (IH _ _ Hrest Hin) as [Hle Hread]. split; [|done].
      destruct (read_chunk_Some _ _ _ Hc0) as (<- & _).
      unfold next_position in Hle. lia.
Qed.

(** Chunks found by a scan do not overlap. *)
Lemma scan_from_apart (fuel : nat) (buf : list byte) (pos : nat) (cs : list Chunk) (c1 c2 : Chunk) :
  scan_from fuel buf pos = Some cs → c1 ∈ cs → c2 ∈ cs →
  c1 = c2 ∨ (next_position c1 ≤ header_at c2)%nat ∨ (next_position c2 ≤ header_at c1)%nat.
Proof.
  revert pos cs. induction fuel as [|fuel IH]; intros pos cs; simpl.
  - case_decide; intros; simplify_eq. by apply elem_of_nil in H1.
  - case_decide; [intros; simplify_eq; by apply elem_of_nil in H1|].
    destruct (read_chunk buf pos) as [c0|] eqn:Hc0; [|done].
    destruct (scan_from fuel buf (next_position c0)) as [rest|] eqn:Hrest; [|done].
    simpl. intros [= <-] [->|H1]%elem_of_cons [->|H2]%elem_of_cons.
    + by left.
    + right; left. by apply (scan_from_chunk _ _ _ _ _ Hrest H2).
    + right; right. by apply (scan_from_chunk _ _ _ _ _ Hrest H1).
    + eauto.
Qed.

(** A scan does not see a change made inside the payload of one of its
    chunks, or before the position it starts from. *)
Lemma scan_from_ext (a b : nat) (buf buf' : list byte) (fuel pos : nat) (cs : list Chunk) :
  agree_outside a b buf buf' →
  scan_from fuel buf pos = Some cs →
  (b ≤ pos)%nat ∨ (∃ c, c ∈ cs ∧ (payload_at c ≤ a)%nat ∧ (b ≤ next_position c)%nat) →
  scan_from fuel buf' pos = Some cs.
Proof.
  intros [Hlen Hagree]. revert pos cs.
  induction fuel as [|fuel IH]; intros pos cs; simpl; rewrite Hlen.
  - by case_decide.
  - case_decide; [done|].
    destruct (read_chunk buf pos) as [c0|] eqn:Hc0; [|done].
    destruct (scan_from fuel buf (next_position c0)) as [rest|] eqn:Hrest; [|done].
    simpl. intros [= <-] Hwhere.
    destruct (read_chunk_Some _ _ _ Hc0) as (Hat & _).
    assert (Hhdr : read_chunk buf' pos = Some c0).
    { rewrite <- Hc0. apply read_chunk_ext; [done|]. intros i Hi. apply Hagree.
      destruct Hwhere as [?|(c & [->|Hin]%elem_of_cons & Ha & Hb)]; [lia | |].
      - unfold payload_at in Ha. lia.
      - apply (scan_from_chunk _ _ _ _ _ Hrest) in Hin as [Hle _].
        unfold payload_at in Ha. unfold next_position in Hle. lia. }
    rewrite Hhdr. erewrite IH; [done | done |].
    destruct Hwhere as [?|(c & [->|Hin]%elem_of_cons & Ha & Hb)].
    + left. unfold next_position. lia.
    + by left.
    + right. eauto.
Qed.

(** Fuel beyond the bytes that are left changes nothing. *)
Lemma scan_from_fuel (buf : list byte) (fuel fuel' pos : nat) :
  (length buf - pos ≤ fuel)%nat → (length buf - pos ≤ fuel')%nat →
  scan_from fuel buf pos = scan_from fuel' buf pos.
Proof.
  revert fuel' pos. induction fuel as [|fuel IH]; intros [|fuel'] pos H1 H2; simpl;
    case_decide; try done; try lia.
  destruct (read_chunk buf pos) as [c0|] eqn:Hc0; [|done].
  destruct (read_chunk_Some _ _ _ Hc0) as (Hat & _).
  rewrite (IH fuel'); [done | |]; unfold next_position; lia.
Qed.

(** ** Editing the payload of a chunk *)

Section MapPayload.
Variables (f : list byte → list byte) (buf : list byte) (c : Chunk).
Hypothesis Hin : (next_position c ≤ length buf)%nat.
Hypothesis Hf : length (f (slice buf (payload_at c) (payload_len c))) = payload_len c.

Lemma length_map_payload : length (map_payload f buf c) = length buf.
Proof.
  unfold map_payload. rewrite !length_app, Hf, length_take, length_drop.
  unfold payload_at, next_position in *. lia.
Qed.

Lemma map_payload_outside : agree_outside (payload_at c) (next_position c) buf (map_payload f buf c).
Proof.
  split; [apply length_map_payload|]. intros i Hi. unfold map_payload.
  unfold payload_at, next_position in *.
  destruct Hi as [Hi|Hi].
  - rewrite lookup_app_l by (rewrite length_take; lia). by rewrite lookup_take_lt.
  - rewrite lookup_app_r by (rewrite length_take; lia).
    rewrite lookup_app_r by (rewrite length_take, Hf; lia).
    rewrite lookup_drop, length_take, Hf. f_equal. lia.
Qed.

Lemma map_payload_slice :
  slice (map_payload f buf c) (payload_at c) (payload_len c)
  = f (slice buf (payload_at c) (payload_len c)).
Proof.
  unfold map_payload, slice at 1.
  rewrite drop_app_length' by (rewrite length_take; unfold payload_at, next_position in *; lia).
  rewrite take_app_length' by done. done.
Qed.
End MapPayload.

Lemma map_payload_id (f : list byte → list byte) (buf : list byte) (c : Chunk) :
  (next_position c ≤ length buf)%nat →
  f (slice buf (payload_at c) (payload_len c)) = slice buf (payload_at c) (payload_len c) →
  map_payload f buf c = buf.
Proof.
  intros Hin Hf. unfold map_payload. rewrite Hf. unfold slice, next_position, payload_at.
  etrans; [|apply (take_drop (header_at c + 8))]. f_equal.
  etrans; [|apply (take_drop (payload_len c))]. f_equal.
  by rewrite drop_drop.
Qed.

(** ** binary32 *)

Lemma f32_fields (s : bool) (e m : Z) :
  0 ≤ e < 256 → 0 ≤ m < 2 ^ 23 →
  let b := sign_bit s + e * 2 ^ 23 + m in
  ((b / 2 ^ 31) mod 2 =? 1) = s ∧ (b / 2 ^ 23) mod 256 = e ∧ b mod 2 ^ 23 = m
  ∧ 0 ≤ b < 2 ^ 32.
Proof.
  intros He Hm b. subst b. unfold sign_bit.
  change (2 ^ 31) with 2147483648. change (2 ^ 23) with 8388608 in *.
  change (2 ^ 32) with 4294967296.
  destruct s; split_and!; try (apply Z.eqb_eq || apply Z.eqb_neq);
    Z.div_mod_to_equations; lia.
Qed.

Lemma canonical32_of_bits (b : Z) : canonical32 (f32_of_bits b).
Proof.
  unfold canonical32, f32_of_bits.
  set (s := (b / 2 ^ 31) mod 2 =? 1).
  assert (He : 0 ≤ (b / 2 ^ 23) mod 256 < 256) by (apply Z.mod_pos_bound; lia).
  assert (Hm : 0 ≤ b mod 2 ^ 23 < 2 ^ 23) by (apply Z.mod_pos_bound; lia).
  set (e := (b / 2 ^ 23) mod 256) in *. set (m := b mod 2 ^ 23) in *.
  destruct (e =? 0) eqn:He0; [apply Z.eqb_eq in He0|apply Z.eqb_neq in He0].
  - destruct (m =? 0) eqn:Hm0; [apply Z.eqb_eq in Hm0|apply Z.eqb_neq in Hm0].
    + simpl. destruct s; by vm_compute.
    + unfold bits_of_f32. rewrite Z2Pos.id by lia.
      destruct (Z.ltb_spec m (2 ^ 23)); [|lia].
      destruct (f32_fields s 0 m ltac:(lia) Hm) as (Hs & Hee & Hmm & Hr).
      rewrite Z.mul_0_l, Z.add_0_r in *. fold (f32_of_bits (sign_bit s + m)).
      unfold f32_of_bits. rewrite Hs, Hee, Hmm. simpl.
      destruct (m =? 0) eqn:Hm0'; [apply Z.eqb_eq in Hm0'; lia|]. done.
  - destruct (e =? 255) eqn:He1; [apply Z.eqb_eq in He1|apply Z.eqb_neq in He1].
    + destruct (m =? 0) eqn:Hm0.
      * simpl. destruct s; by vm_compute.
      * by vm_compute.
    + unfold bits_of_f32. rewrite Z2Pos.id by lia.
      destruct (Z.ltb_spec (m + 2 ^ 23) (2 ^ 23)); [lia|].
      replace (e - 150 + 150) with e by lia. replace (m + 2 ^ 23 - 2 ^ 23) with m by lia.
      destruct (f32_fields s e m He Hm) as (Hs & Hee & Hmm & Hr).
      fold (f32_of_bits (sign_bit s + e * 2 ^ 23 + m)).
      unfold f32_of_bits. rewrite Hs, Hee, Hmm.
      destruct (e =? 0) eqn:He0'; [apply Z.eqb_eq in He0'; lia|].
      destruct (e =? 255) eqn:He1'; [apply Z.eqb_eq in He1'; lia|]. done.
Qed.

Lemma f32_add_zero (x : float32) :
  f32_add x f32_zero = match x with S754_zero _ => f32_zero | _ => x end.
Proof. by destruct x as [[]|[]| |]. Qed.

Lemma canonical32_add_zero (x : float32) : canonical32 x → canonical32 (f32_add x f32_zero).
Proof.
  rewrite f32_add_zero. destruct x; [intros _; by vm_compute | done..].
Qed.

Lemma same_value_add_zero (x : float32) : same_value (f32_add x f32_zero) x.
Proof.
  rewrite f32_add_zero. destruct x; try by left.
  right. unfold f32_zero. eauto.
Qed.

Lemma read_f32_bytes (f : float32) : canonical32 f → read_f32 (f32_bytes f) = f.
Proof.
  intros [Hf Hr]. unfold read_f32, f32_bytes. rewrite le32_u32_bytes.
  unfold wrap32. by rewrite Z.mod_small.
Qed.

Lemma canonical32_read (bs : list byte) : canonical32 (read_f32 bs).
Proof. apply canonical32_of_bits. Qed.

(** ** Placement records *)

(** Name the 16 leading bytes of a record. *)
Ltac open_record rec H :=
  do 16 (destruct rec as [|? rec]; [simpl in H; lia|]).

Lemma length_translate_record (delta : Vec3) (rec : list byte) :
  (16 ≤ length rec)%nat → length (translate_record delta rec) = length rec.
Proof.
  intros H. destruct delta as [[dx dy] dz]. unfold translate_record, position_of.
  rewrite !length_app, length_take, length_drop. unfold f32_bytes.
  rewrite !length_u32_bytes. lia.
Qed.


Lemma translate_record_app (delta : Vec3) (h p1 p2 p3 t : list byte) :
  length h = 4%nat → length p1 = 4%nat → length p2 = 4%nat → length p3 = 4%nat →
  translate_record delta (h ++ p1 ++ p2 ++ p3 ++ t)
  = h ++ f32_bytes (f32_add (read_f32 p1) delta.1.1)
      ++ f32_bytes (f32_add (read_f32 p2) delta.1.2)
      ++ f32_bytes (f32_add (read_f32 p3) delta.2) ++ t.
Proof.
  destruct delta as [[dx dy] dz].
  destruct h as [|? [|? [|? [|? [|]]]]]; try done.
  destruct p1 as [|? [|? [|? [|? [|]]]]]; try done.
  destruct p2 as [|? [|? [|? [|? [|]]]]]; try done.
  destruct p3 as [|? [|? [|? [|? [|]]]]]; done.
Qed.

Lemma record_split (rec : list byte) :
  (16 ≤ length rec)%nat →
  rec = take 4 rec ++ slice rec 4 4 ++ slice rec 8 4 ++ slice rec 12 4 ++ drop 16 rec.
Proof. intros H. open_record rec H. done. Qed.

Lemma f32_settle_idem (x : float32) :
  canonical32 x →
  f32_bytes (f32_add (read_f32 (f32_bytes (f32_add x f32_zero))) f32_zero)
  = f32_bytes (f32_add x f32_zero).
Proof.
  intros Hx. rewrite read_f32_bytes by by apply canonical32_add_zero.
  rewrite !f32_add_zero. by destruct x.
Qed.

Lemma translate_record_idem (rec : list byte) :
  (16 ≤ length rec)%nat →
  translate_record zero_delta (translate_record zero_delta rec)
  = translate_record zero_delta rec.
Proof.
  intros H. rewrite (record_split rec H).
  rewrite translate_record_app by (rewrite ?length_take, ?length_slice; lia).
  rewrite translate_record_app by (rewrite ?length_take; try done; lia).
  unfold zero_delta; cbn [fst snd].
  by rewrite !f32_settle_idem by apply canonical32_read.
Qed.

(** ** Arrays of fixed-size blocks *)

Lemma rewrite_into_blocks (es : list MCIN.t) (p : list byte) :
  rewrite_into es p = map_blocks (rewrite_entry <$> es) 16 p.
Proof. revert p. induction es as [|e es IH]; intros p; simpl; [done|]. by rewrite IH. Qed.

Lemma translate_records_blocks (n rec_size : nat) (delta : Vec3) (p : list byte) :
  translate_records n rec_size delta p
  = map_blocks (replicate n (translate_record delta)) rec_size p.
Proof. revert p. induction n as [|n IH]; intros p; simpl; [done|]. by rewrite IH. Qed.

Section Blocks.
Variable s : nat.

Lemma length_map_blocks (gs : list (list byte → list byte)) (p : list byte) :
  Forall (block_fun s) gs → (length gs * s ≤ length p)%nat →
  length (map_blocks gs s p) = length p.
Proof.
  intros Hgs. revert p. induction Hgs as [|g gs Hg _ IH]; intros p Hp; simpl in *; [done|].
  rewrite length_app, Hg, IH; rewrite ?length_take, ?length_drop; lia.
Qed.

Lemma map_blocks_block (gs : list (list byte → list byte)) (p : list byte) (k : nat)
    (g : list byte → list byte) :
  Forall (block_fun s) gs → (length gs * s ≤ length p)%nat →
  gs !! k = Some g →
  slice (map_blocks gs s p) (k * s) s = g (slice p (k * s) s).
Proof.
  intros Hgs. revert p k.
  induction Hgs as [|g0 gs Hg _ IH]; intros p k Hp Hk; simpl in *; [done|].
  assert (Hlen : length (g0 (take s p)) = s) by (apply Hg; rewrite length_take; lia).
  destruct k as [|k]; simpl in *.
  - injection Hk as <-. unfold slice. rewrite !drop_0.
    by rewrite take_app_length' by done.
  - unfold slice. rewrite <- !drop_drop.
    rewrite drop_app_length' by done.
    apply (IH (drop s p) k); [rewrite length_drop; lia | done].
Qed.


Lemma map_blocks_idem (gs : list (list byte → list byte)) (p : list byte) :
  Forall (block_fun s) gs → (length gs * s ≤ length p)%nat →
  Forall (λ g, ∀ b, length b = s → g (g b) = g b) gs →
  map_blocks gs s (map_blocks gs s p) = map_blocks gs s p.
Proof.
  intros Hgs. revert p.
  induction Hgs as [|g0 gs Hg _ IH]; intros p Hp Hidem; simpl in *; [done|].
  assert (Hb : length (take s p) = s) by (rewrite length_take; lia).
  apply Forall_cons in Hidem as [Hg0 Hidem].
  rewrite take_app_length', drop_app_length' by (symmetry; by apply Hg).
  rewrite Hg0, IH; [done | rewrite length_drop; lia | done | done].
Qed.
End Blocks.

(** ** The repair pass on a well-formed file *)

Lemma find_chunk_Some (t : list byte) (cs : list Chunk) (c : Chunk) :
  find_chunk t cs = Some c → c ∈ cs ∧ tag c = t ∧ has_tag t c = true.
Proof.
  unfold find_chunk. intros [Hin Ht]%find_some.
  split_and!; [by apply list_elem_of_In | | done].
  unfold has_tag in Ht. by apply bool_decide_eq_true in Ht.
Qed.

Lemma record_MCNKs_offset (cs : list Chunk) (k : nat) (d : OffsetFixData.t) :
  OffsetFixData.offset (record_MCNKs k cs d) = OffsetFixData.offset d.
Proof. revert k d. induction cs as [|c cs IH]; intros k d; simpl; [done|]. by rewrite IH. Qed.

Lemma scanned_data_offset (cs : list Chunk) (m w : Chunk) :
  OffsetFixData.offset (scanned_data cs m w) = Offsets.zero.
Proof. unfold scanned_data; simpl. by rewrite record_MCNKs_offset. Qed.

Lemma scan_chunk (buf : list byte) (cs : list Chunk) (c : Chunk) :
  scan buf = Some cs → c ∈ cs →
  (next_position c ≤ length buf)%nat ∧ read_chunk buf (header_at c) = Some c.
Proof.
  intros Hscan Hin. destruct (scan_from_chunk _ _ _ _ _ Hscan Hin) as [_ Hread].
  split; [|done]. by destruct (read_chunk_Some _ _ _ Hread) as (_ & ? & _).
Qed.

Lemma scan_map_payload (f : list byte → list byte) (buf : list byte) (cs : list Chunk) (c : Chunk) :
  scan buf = Some cs → c ∈ cs →
  length (f (slice buf (payload_at c) (payload_len c))) = payload_len c →
  scan (map_payload f buf c) = Some cs.
Proof.
  intros Hscan Hin Hf. destruct (scan_chunk _ _ _ Hscan Hin) as [Hnext _].
  unfold scan. rewrite length_map_payload by done.
  eapply scan_from_ext; [by apply map_payload_outside | done |].
  right. exists c. split_and!; [done | lia | lia].
Qed.

(** The payload of a chunk is not touched by an edit inside another chunk of
    the same scan. *)
Lemma map_payload_other (f : list byte → list byte) (buf : list byte) (cs : list Chunk)
    (c c' : Chunk) :
  scan buf = Some cs → c ∈ cs → c' ∈ cs → c ≠ c' →
  length (f (slice buf (payload_at c) (payload_len c))) = payload_len c →
  slice (map_payload f buf c) (payload_at c') (payload_len c')
  = slice buf (payload_at c') (payload_len c').
Proof.
  intros Hscan Hin Hin' Hne Hf.
  destruct (scan_chunk _ _ _ Hscan Hin) as [Hnext _].
  destruct (map_payload_outside f buf c Hnext Hf) as [_ Hout].
  apply slice_ext. intros i Hi. apply Hout.
  unfold payload_at, next_position in *.
  destruct (scan_from_apart _ _ _ _ _ _ Hscan Hin Hin') as [?|[?|?]];
    [done | |]; unfold next_position in *; lia.
Qed.

Lemma length_rewrite_into (es : list MCIN.t) (p : list byte) :
  (length es * 16 ≤ length p)%nat → length (rewrite_into es p) = length p.
Proof.
  intros. rewrite rewrite_into_blocks. apply length_map_blocks.
  - apply Forall_fmap, Forall_forall. intros e _ b Hb. unfold rewrite_entry.
    rewrite !length_app, !length_u32_bytes, length_drop. simpl. lia.
  - by rewrite length_fmap.
Qed.

Lemma rewrite_entry_block (e : MCIN.t) : block_fun 16 (rewrite_entry e).
Proof.
  intros b Hb. unfold rewrite_entry.
  rewrite !length_app, !length_u32_bytes, length_drop. lia.
Qed.

Lemma rewrite_into_idem (es : list MCIN.t) (p : list byte) :
  (length es * 16 ≤ length p)%nat →
  rewrite_into es (rewrite_into es p) = rewrite_into es p.
Proof.
  intros. rewrite !rewrite_into_blocks. apply map_blocks_idem.
  - apply Forall_fmap, Forall_forall. intros e _. apply rewrite_entry_block.
  - by rewrite length_fmap.
  - apply Forall_fmap, Forall_forall. intros e _ b Hb. unfold rewrite_entry. simpl.
    done.
Qed.

Lemma translate_record_block (rec_size : nat) (delta : Vec3) :
  (16 ≤ rec_size)%nat → block_fun rec_size (translate_record delta).
Proof. intros Hs b Hb. rewrite length_translate_record; lia. Qed.

Lemma whole_records (rec_size : nat) (p : list byte) :
  (0 < rec_size)%nat → (length p / rec_size * rec_size ≤ length p)%nat.
Proof. intros. rewrite Nat.mul_comm. apply Nat.Div0.mul_div_le. Qed.

Lemma length_translate_placements (rec_size : nat) (delta : Vec3) (p : list byte) :
  (16 ≤ rec_size)%nat → length (translate_placements rec_size delta p) = length p.
Proof.
  intros Hs. unfold translate_placements. rewrite translate_records_blocks.
  apply length_map_blocks.
  - apply Forall_replicate. by apply translate_record_block.
  - rewrite length_replicate. apply whole_records. lia.
Qed.

Lemma translate_placements_idem (rec_size : nat) (p : list byte) :
  (16 ≤ rec_size)%nat →
  translate_placements rec_size zero_delta (translate_placements rec_size zero_delta p)
  = translate_placements rec_size zero_delta p.
Proof.
  intros Hs. unfold translate_placements at 1.
  rewrite length_translate_placements by done. fold (translate_placements rec_size zero_delta p).
  unfold translate_placements. rewrite !translate_records_blocks.
  apply map_blocks_idem.
  - apply Forall_replicate. by apply translate_record_block.
  - rewrite length_replicate. apply whole_records. lia.
  - apply Forall_replicate. intros b Hb. apply translate_record_idem. lia.
Qed.

Lemma stored_offset (c : Chunk) :
  in_range c = true → Z.to_nat (wrap32 (Z.of_nat (header_at c))) = header_at c.
Proof.
  unfold in_range, wrap32. intros Hc%Z.ltb_lt. rewrite Z.mod_small by lia. lia.
Qed.

Lemma chunks_known (buf : list byte) (cs : list Chunk) (cI m w : Chunk) :
  well_formed buf cs cI m w →
  cI ∈ cs ∧ m ∈ cs ∧ w ∈ cs ∧ cI ≠ m ∧ cI ≠ w ∧ m ≠ w
  ∧ has_tag tag_MDDF m = true ∧ has_tag tag_MODF w = true.
Proof.
  intros (_ & HcI & Hm & Hw & _).
  destruct (find_chunk_Some _ _ _ HcI) as (? & HtI & _).
  destruct (find_chunk_Some _ _ _ Hm) as (? & Htm & ?).
  destruct (find_chunk_Some _ _ _ Hw) as (? & Htw & ?).
  split_and!; try done; intros ->; rewrite ?HtI, ?Htm in *; discriminate.
Qed.

(** A fix step that edits the payload of a scanned chunk, keeping its length,
    leaves a well-formed file. *)
Lemma well_formed_map_payload (f : list byte → list byte) (buf : list byte)
    (cs : list Chunk) (cI m w c : Chunk) :
  well_formed buf cs cI m w → c ∈ cs →
  length (f (slice buf (payload_at c) (payload_len c))) = payload_len c →
  well_formed (map_payload f buf c) cs cI m w.
Proof.
  intros (Hscan & Hrest) Hin Hf. split; [|done]. by apply scan_map_payload.
Qed.

Lemma payload_length (buf : list byte) (cs : list Chunk) (c : Chunk) :
  scan buf = Some cs → c ∈ cs →
  length (slice buf (payload_at c) (payload_len c)) = payload_len c.
Proof.
  intros Hscan Hin. destruct (scan_chunk _ _ _ Hscan Hin) as [Hnext _].
  apply length_slice. unfold payload_at, next_position in *. lia.
Qed.

Lemma fix_placements_returns (buf : list byte) (cs : list Chunk) (cI m w c : Chunk)
    (t : list byte) (rec_size : nat) :
  well_formed buf cs cI m w → c ∈ cs → in_range c = true → has_tag t c = true →
  OffsetRepairer.fix_placements t rec_size (wrap32 (Z.of_nat (header_at c))) buf
    (scanned_data cs m w)
  = Done (map_payload (translate_placements rec_size zero_delta) buf c) (scanned_data cs m w).
Proof.
  intros (Hscan & _) Hin Hc Ht. unfold OffsetRepairer.fix_placements.
  rewrite (stored_offset c Hc).
  destruct (scan_chunk _ _ _ Hscan Hin) as [_ Hr].
  rewrite Hr, Ht. by rewrite scanned_data_offset.
Qed.

Section WellFormed.
Variables (buf : list byte) (cs : list Chunk) (cI m w : Chunk).
Hypothesis Hwf : well_formed buf cs cI m w.

Let d := scanned_data cs m w.
Let gI := rewrite_into (vec_to_list (OffsetFixData.positions d)).
Let gM := translate_placements doodad_size zero_delta.
Let gW := translate_placements object_size zero_delta.
Let buf1 := map_payload gI buf cI.
Let buf2 := map_payload gM buf1 m.

Lemma fix_steps_keep_form :
  length (gI (slice buf (payload_at cI) (payload_len cI))) = payload_len cI
  ∧ length (gM (slice buf1 (payload_at m) (payload_len m))) = payload_len m
  ∧ length (gW (slice buf2 (payload_at w) (payload_len w))) = payload_len w
  ∧ well_formed buf1 cs cI m w
  ∧ well_formed buf2 cs cI m w
  ∧ well_formed (repaired buf d cI m w) cs cI m w.
Proof using Hwf.
  destruct (chunks_known _ _ _ _ _ Hwf) as (HI & HM & HW & _).
  pose proof Hwf as (Hscan & _ & _ & _ & Hlen & _).
  assert (H1 : length (gI (slice buf (payload_at cI) (payload_len cI))) = payload_len cI).
  { unfold gI. rewrite length_rewrite_into; rewrite ?length_vec_to_list;
      rewrite (payload_length buf cs) by done; lia. }
  assert (Hwf1 : well_formed buf1 cs cI m w) by by apply well_formed_map_payload.
  pose proof Hwf1 as (Hscan1 & _).
  assert (H2 : length (gM (slice buf1 (payload_at m) (payload_len m))) = payload_len m).
  { unfold gM. rewrite length_translate_placements by (unfold doodad_size; lia).
    by apply (payload_length buf1 cs). }
  assert (Hwf2 : well_formed buf2 cs cI m w) by by apply well_formed_map_payload.
  pose proof Hwf2 as (Hscan2 & _).
  assert (H3 : length (gW (slice buf2 (payload_at w) (payload_len w))) = payload_len w).
  { unfold gW. rewrite length_translate_placements by (unfold object_size; lia).
    by apply (payload_length buf2 cs). }
  split_and!; try done.
  by apply well_formed_map_payload.
Qed.

(** On a well-formed file the pass returns, with this file and this state. *)
Lemma pass_returns :
  OffsetFix.result (OffsetFix.try_block OffsetRepairer.ops buf OffsetFixData.zero)
  = Done (repaired buf d cI m w) d.
Proof using Hwf.
  destruct (chunks_known _ _ _ _ _ Hwf) as (HI & HM & HW & _ & _ & _ & HtM & HtW).
  destruct fix_steps_keep_form as (H1 & H2 & H3 & Hwf1 & Hwf2 & _).
  pose proof Hwf as (Hscan & HcI & Hm & Hw & Hlen & Hterrain & HrM & HrW).
  assert (S1 : OffsetRepairer.findMCNKs buf OffsetFixData.zero
               = Done buf (record_MCNKs 0 (filter (has_tag tag_MCNK) cs) OffsetFixData.zero)).
  { unfold OffsetRepairer.findMCNKs. by rewrite Hscan, Hterrain. }
  assert (S2 : OffsetRepairer.findMDDFandMODF buf
                 (record_MCNKs 0 (filter (has_tag tag_MCNK) cs) OffsetFixData.zero)
               = Done buf d).
  { unfold OffsetRepairer.findMDDFandMODF. by rewrite Hscan, Hm, Hw, HrM, HrW. }
  assert (S3 : OffsetRepairer.fixMCNKs buf d = Done buf1 d).
  { unfold OffsetRepairer.fixMCNKs. rewrite Hscan, HcI.
    by rewrite !decide_False by lia. }
  assert (S4 : OffsetRepairer.fixDoodads buf1 d = Done buf2 d).
  { by apply (fix_placements_returns buf1 cs cI m w m). }
  assert (S5 : OffsetRepairer.fixWMOs buf2 d = Done (repaired buf d cI m w) d).
  { by apply (fix_placements_returns buf2 cs cI m w w). }
  unfold OffsetFix.try_block, OffsetFix.call, OffsetFix.start.
  cbn [OffsetFix.result OffsetFix.calls OffsetRepairer.ops
       findMCNKs findMDDFandMODF fixMCNKs fixDoodads fixWMOs].
  rewrite S1. cbn [OffsetFix.result OffsetFix.calls]. rewrite S2.
  cbn [OffsetFix.result OffsetFix.calls]. rewrite S3.
  cbn [OffsetFix.result OffsetFix.calls]. rewrite S4.
  cbn [OffsetFix.result OffsetFix.calls]. by rewrite S5.
Qed.

(** Every fix step finds its payload in the repaired file as it left it. *)
Lemma repaired_payloads :
  let buf3 := repaired buf d cI m w in
  slice buf3 (payload_at cI) (payload_len cI) = gI (slice buf (payload_at cI) (payload_len cI))
  ∧ slice buf3 (payload_at m) (payload_len m) = gM (slice buf (payload_at m) (payload_len m))
  ∧ slice buf3 (payload_at w) (payload_len w) = gW (slice buf (payload_at w) (payload_len w)).
Proof using Hwf.
  destruct (chunks_known _ _ _ _ _ Hwf) as (HI & HM & HW & HIM & HIW & HMW & _).
  destruct fix_steps_keep_form as (H1 & H2 & H3 & Hwf1 & Hwf2 & _).
  pose proof Hwf as (Hscan & _). pose proof Hwf1 as (Hs1 & _).
  pose proof Hwf2 as (Hs2 & _).
  destruct (scan_chunk _ _ _ Hscan HI) as [HnI _].
  destruct (scan_chunk _ _ _ Hs1 HM) as [HnM _].
  destruct (scan_chunk _ _ _ Hs2 HW) as [HnW _].
  simpl. unfold repaired. fold gI gM gW. fold buf1. fold buf2.
  split_and!.
  - rewrite (map_payload_other gW buf2 cs w cI) by done.
    unfold buf2. rewrite (map_payload_other gM buf1 cs m cI) by done.
    by apply map_payload_slice.
  - rewrite (map_payload_other gW buf2 cs w m) by done.
    unfold buf2. rewrite map_payload_slice by done.
    unfold buf1. by rewrite (map_payload_other gI buf cs cI m) by done.
  - rewrite map_payload_slice by done.
    unfold buf2. rewrite (map_payload_other gM buf1 cs m w) by done.
    unfold buf1. by rewrite (map_payload_other gI buf cs cI w) by done.
Qed.
End WellFormed.

(** A pass that returns has run on a well-formed file. *)
Lemma pass_inv (buf b1 : list byte) (d1 : OffsetFixData.t) :
  OffsetFix.result (OffsetFix.try_block OffsetRepairer.ops buf OffsetFixData.zero) = Done b1 d1 →
  ∃ cs cI m w, well_formed buf cs cI m w.
Proof.
  intros Hres.
  destruct (try_block_cases OffsetRepairer.ops buf OffsetFixData.zero)
    as [(e & b & H1 & Hr & _)
       | (b1' & d1' & H1 & [(e & b & H2 & Hr & _) | (b2 & d2 & H2 & Hr & _)])];
    rewrite Hres in Hr; try discriminate.
  cbn [OffsetRepairer.ops findMCNKs findMDDFandMODF] in H1, H2.
  unfold OffsetRepairer.findMCNKs in H1.
  destruct (scan buf) as [cs|] eqn:Hscan; [|done].
  destruct (forallb in_range (filter (has_tag tag_MCNK) cs)) eqn:Hterrain; [|done].
  injection H1 as <- <-.
  unfold OffsetRepairer.findMDDFandMODF in H2. rewrite Hscan in H2.
  destruct (find_chunk tag_MDDF cs) as [m|] eqn:Hm; [|done].
  destruct (find_chunk tag_MODF cs) as [w|] eqn:Hw; [|done].
  destruct (in_range m) eqn:HrM; [|done]. destruct (in_range w) eqn:HrW; [|done].
  injection H2 as <- <-.
  unfold fix_block, OffsetFix.call, OffsetFix.start in Hr.
  cbn [OffsetFix.result OffsetFix.calls OffsetRepairer.ops fixMCNKs] in Hr.
  destruct (OffsetRepairer.fixMCNKs buf _) as [b3 d3|e b] eqn:H3; [|by simpl in Hr].
  unfold OffsetRepairer.fixMCNKs in H3. rewrite Hscan in H3.
  destruct (find_chunk tag_MCIN cs) as [cI|] eqn:HcI; [|done].
  destruct (decide (payload_len cI < 4096)%nat); [done|].
  destruct (decide (4096 < payload_len cI)%nat); [done|].
  exists cs, cI, m, w. split_and!; try done. lia.
Qed.

(** The whole pass. *)
Lemma pass_Done (buf b1 : list byte) (d1 : OffsetFixData.t) :
  OffsetFix.result (OffsetFix.try_block OffsetRepairer.ops buf OffsetFixData.zero) = Done b1 d1 →
  ∃ cs cI m w,
    well_formed buf cs cI m w
    ∧ d1 = scanned_data cs m w
    ∧ b1 = repaired buf d1 cI m w.
Proof.
  intros Hres.
  destruct (pass_inv _ _ _ Hres) as (cs & cI & m & w & Hwf).
  exists cs, cI, m, w. rewrite (pass_returns buf cs cI m w Hwf) in Hres.
  by simplify_eq.
Qed.

(** The modelled steps throw before the first of them writes: an exception
    leaves the file as the pass found it. *)
Lemma pass_Raised (buf b : list byte) (e : exn) :
  OffsetFix.result (OffsetFix.try_block OffsetRepairer.ops buf OffsetFixData.zero) = Raised e b →
  b = buf.
Proof.
  intros Hres.
  destruct (try_block_cases OffsetRepairer.ops buf OffsetFixData.zero)
    as [(e1 & b1 & H1 & Hr & _)
       | (b1 & d1 & H1 & [(e2 & b2 & H2 & Hr & _) | (b2 & d2 & H2 & Hr & _)])];
    rewrite Hres in Hr;
    cbn [OffsetRepairer.ops findMCNKs findMDDFandMODF] in *.
  - injection Hr as -> ->. unfold OffsetRepairer.findMCNKs in H1.
    repeat case_match; congruence.
  - injection Hr as -> ->.
    unfold OffsetRepairer.findMCNKs in H1. unfold OffsetRepairer.findMDDFandMODF in H2.
    repeat case_match; congruence.
  - unfold OffsetRepairer.findMCNKs in H1.
    destruct (scan buf) as [cs|] eqn:Hscan; [|done].
    destruct (forallb in_range (filter (has_tag tag_MCNK) cs)) eqn:Hterrain; [|done].
    injection H1 as <- <-.
    unfold OffsetRepairer.findMDDFandMODF in H2. rewrite Hscan in H2.
    destruct (find_chunk tag_MDDF cs) as [m|] eqn:Hm; [|done].
    destruct (find_chunk tag_MODF cs) as [w|] eqn:Hw; [|done].
    destruct (in_range m) eqn:HrM; [|done]. destruct (in_range w) eqn:HrW; [|done].
    injection H2 as <- <-.
    destruct (find_chunk tag_MCIN cs) as [cI|] eqn:HcI.
    + destruct (decide (payload_len cI < 4096)%nat) as [Hshort|Hlong].
      * unfold fix_block, OffsetFix.call, OffsetFix.start in Hr.
        cbn [OffsetFix.result OffsetFix.calls OffsetRepairer.ops fixMCNKs] in Hr.
        unfold OffsetRepairer.fixMCNKs in Hr. rewrite Hscan, HcI in Hr.
        rewrite decide_True in Hr by done. simpl in Hr. congruence.
      * destruct (decide (4096 < payload_len cI)%nat) as [Hlonger|Hfits].
        { unfold fix_block, OffsetFix.call, OffsetFix.start in Hr.
          cbn [OffsetFix.result OffsetFix.calls OffsetRepairer.ops fixMCNKs] in Hr.
          unfold OffsetRepairer.fixMCNKs in Hr. rewrite Hscan, HcI in Hr.
          rewrite decide_False, decide_True in Hr by done. simpl in Hr. congruence. }
        assert (Hwf : well_formed buf cs cI m w) by (split_and!; try done; lia).
        rewrite (pass_returns buf cs cI m w Hwf) in Hres. discriminate.
    + unfold fix_block, OffsetFix.call, OffsetFix.start in Hr.
      cbn [OffsetFix.result OffsetFix.calls OffsetRepairer.ops fixMCNKs] in Hr.
      unfold OffsetRepairer.fixMCNKs in Hr. rewrite Hscan, HcI in Hr.
      simpl in Hr. congruence.
Qed.

Lemma record_MCNKs_entry (cs : list Chunk) (k0 : nat) (d : OffsetFixData.t) (k : nat) :
  vec_to_list (OffsetFixData.positions (record_MCNKs k0 cs d)) !! k
  = match decide (k0 ≤ k < 256)%nat, cs !! (k - k0)%nat with
    | left _, Some c =>
      Some (MCIN.mk (wrap32 (Z.of_nat (header_at c))) (wrap32 (Z.of_nat (payload_len c)))
              (MCIN.temp1 (default MCIN.zero (vec_to_list (OffsetFixData.positions d) !! k)))
              (MCIN.temp2 (default MCIN.zero (vec_to_list (OffsetFixData.positions d) !! k))))
    | _, _ => vec_to_list (OffsetFixData.positions d) !! k
    end
  ∧ vec_to_list (OffsetFixData.positionsMCNK (record_MCNKs k0 cs d)) !! k
  = match decide (k0 ≤ k < 256)%nat, cs !! (k - k0)%nat with
    | left _, Some c => Some (wrap32 (Z.of_nat (header_at c)))
    | _, _ => vec_to_list (OffsetFixData.positionsMCNK d) !! k
    end.
Proof.
  revert k0 d. induction cs as [|c cs IH]; intros k0 d; simpl.
  { destruct (decide _); by rewrite ?lookup_nil. }
  destruct (IH (S k0) (record_MCNK k0 c d)) as [IH1 IH2]. rewrite IH1, IH2. clear IH IH1 IH2.
  unfold record_MCNK. cbn [OffsetFixData.positions OffsetFixData.positionsMCNK].
  rewrite !vec_to_list_vset.
  destruct (decide (k = k0)) as [->|Hne].
  - rewrite Nat.sub_diag. cbn [lookup list_lookup].
    destruct (decide (S k0 ≤ k0 < 256)%nat); [lia|].
    destruct (decide (k0 ≤ k0 < 256)%nat).
    + rewrite !list_lookup_insert_eq by (rewrite length_vec_to_list; lia). done.
    + rewrite !list_insert_ge by (rewrite length_vec_to_list; lia). done.
  - rewrite !list_lookup_insert_ne by done.
    destruct (decide (S k0 ≤ k < 256)%nat), (decide (k0 ≤ k < 256)%nat); try lia; try done.
    replace (k - k0)%nat with (S (k - S k0)) by lia. done.
Qed.

Lemma chunk_sizes (buf : list byte) (cs : list Chunk) (c : Chunk) :
  scan buf = Some cs → c ∈ cs → 0 ≤ Z.of_nat (payload_len c) < 2 ^ 32.
Proof.
  intros Hscan Hin. destruct (scan_chunk _ _ _ Hscan Hin) as [Hnext Hread].
  destruct (read_chunk_Some _ _ _ Hread) as (_ & _ & _ & ->).
  unfold next_position in Hnext.
  pose proof (le32_range (slice buf (header_at c + 4) 4)) as H.
  rewrite length_slice in H by lia. lia.
Qed.

(** What the first scan records, from the value-initialised state. *)
Lemma recorded_slot (buf : list byte) (cs : list Chunk) (k : nat) :
  scan buf = Some cs →
  forallb in_range (filter (has_tag tag_MCNK) cs) = true →
  (k < 256)%nat →
  let d := record_MCNKs 0 (filter (has_tag tag_MCNK) cs) OffsetFixData.zero in
  let s := slot_of (filter (has_tag tag_MCNK) cs) k in
  vec_to_list (OffsetFixData.positions d) !! k = Some (MCIN.mk s.1 s.2 0 0)
  ∧ vec_to_list (OffsetFixData.positionsMCNK d) !! k = Some s.1.
Proof.
  intros Hscan Hrange Hk. simpl.
  destruct (record_MCNKs_entry (filter (has_tag tag_MCNK) cs) 0 OffsetFixData.zero k)
    as [-> ->].
  destruct (decide (0 ≤ k < 256)%nat); [|lia]. rewrite Nat.sub_0_r. unfold slot_of.
  cbn [OffsetFixData.zero OffsetFixData.positions OffsetFixData.positionsMCNK].
  rewrite !vec_to_list_replicate, !lookup_replicate_2 by done.
  destruct (filter (has_tag tag_MCNK) cs !! k) as [c|] eqn:Hc; [|done].
  assert (Hin : c ∈ filter (has_tag tag_MCNK) cs) by (by eapply list_elem_of_lookup_2).
  assert (Hr : in_range c = true).
  { rewrite forallb_forall in Hrange. by apply Hrange, list_elem_of_In. }
  apply list_elem_of_filter in Hin as [_ Hin].
  pose proof (chunk_sizes _ _ _ Hscan Hin) as Hlen.
  unfold in_range in Hr. apply Z.ltb_lt in Hr.
  cbn [fst snd MCIN.temp1 MCIN.temp2 default MCIN.zero].
  unfold wrap32. rewrite !Z.mod_small by lia. done.
Qed.

(** A slot after [rewrite_entry], as an entry in the layout of [MCIN]. *)
Lemma rewrite_entry_layout (e : MCIN.t) (slot : list byte) :
  length slot = 16%nat →
  rewrite_entry e slot
  = MCIN_bytes (MCIN.mk (MCIN.offset e) (MCIN.size e)
                  (le32 (slice slot 8 4)) (le32 (slice slot 12 4))).
Proof.
  intros H. unfold rewrite_entry, MCIN_bytes.
  cbn [MCIN.offset MCIN.size MCIN.temp1 MCIN.temp2].
  rewrite !u32_bytes_le32 by (rewrite length_slice; lia).
  do 16 (destruct slot as [|? slot]; [done|]). by destruct slot.
Qed.

(** Slot [k] of the table after [rewrite_into]. *)
Lemma rewrite_into_slot (es : list MCIN.t) (p : list byte) (k : nat) (e : MCIN.t) :
  (length es * 16 ≤ length p)%nat → es !! k = Some e →
  slice (rewrite_into es p) (k * 16) 16 = rewrite_entry e (slice p (k * 16) 16).
Proof.
  intros Hp He. rewrite rewrite_into_blocks. apply map_blocks_block.
  - apply Forall_fmap, Forall_forall. intros e' _. apply rewrite_entry_block.
  - by rewrite length_fmap.
  - by rewrite list_lookup_fmap, He.
Qed.

(** Slot [k] of the index chunk after the index has been written. *)
Lemma index_written_slot (buf : list byte) (cs : list Chunk) (cI : Chunk)
    (es : list MCIN.t) (k : nat) (e : MCIN.t) :
  scan buf = Some cs → cI ∈ cs → (length es * 16 ≤ payload_len cI)%nat →
  es !! k = Some e →
  slice (map_payload (rewrite_into es) buf cI) (payload_at cI + k * 16) 16
  = MCIN_bytes (MCIN.mk (MCIN.offset e) (MCIN.size e)
                  (le32 (slice buf (payload_at cI + k * 16 + 8) 4))
                  (le32 (slice buf (payload_at cI + k * 16 + 12) 4))).
Proof.
  intros Hscan HI Hlen He.
  destruct (scan_chunk _ _ _ Hscan HI) as [Hnext _].
  pose proof (payload_length buf cs cI Hscan HI) as Hpl.
  apply lookup_lt_Some in He as Hk.
  assert (Hfit : (k * 16 + 16 ≤ payload_len cI)%nat) by lia.
  rewrite <- (slice_slice _ (payload_at cI) (payload_len cI)) by done.
  rewrite map_payload_slice;
    [|done|by rewrite length_rewrite_into by lia].
  rewrite rewrite_into_slot with (e := e) by (done || lia).
  rewrite slice_slice by done.
  rewrite rewrite_entry_layout
    by (apply length_slice; unfold payload_at, next_position in *; lia).
  by rewrite !slice_slice by lia.
Qed.

Lemma fixMCNKs_Done (buf : list byte) (d : OffsetFixData.t) (b' : list byte) (d' : OffsetFixData.t) :
  OffsetRepairer.fixMCNKs buf d = Done b' d' →
  d' = d
  ∧ ∃ cs cI, scan buf = Some cs ∧ find_chunk tag_MCIN cs = Some cI
      ∧ payload_len cI = 4096%nat
      ∧ b' = map_payload (rewrite_into (vec_to_list (OffsetFixData.positions d))) buf cI.
Proof.
  unfold OffsetRepairer.fixMCNKs.
  destruct (scan buf) as [cs|] eqn:Hscan; [|done].
  destruct (find_chunk tag_MCIN cs) as [cI|] eqn:HcI; [|done].
  case_decide; [done|]. case_decide; [done|]. intros [= <- <-].
  split; [done|]. exists cs, cI. split_and!; try done. lia.
Qed.

(** Slot [k] of the index chunk of a well-formed file, after the pass: the
    offset and the size of the [k]-th terrain chunk, and the two reserved
    fields the file held. *)
Lemma repaired_slot (buf : list byte) (cs : list Chunk) (cI m w : Chunk) (k : nat) :
  well_formed buf cs cI m w → (k < 256)%nat →
  let s := slot_of (filter (has_tag tag_MCNK) cs) k in
  slice (repaired buf (scanned_data cs m w) cI m w) (payload_at cI + k * 16) 16
  = MCIN_bytes (MCIN.mk s.1 s.2
                  (le32 (slice buf (payload_at cI + k * 16 + 8) 4))
                  (le32 (slice buf (payload_at cI + k * 16 + 12) 4))).
Proof.
  intros Hwf Hk. simpl.
  destruct (repaired_payloads buf cs cI m w Hwf) as (HsI & _).
  destruct (chunks_known _ _ _ _ _ Hwf) as (HI & _).
  pose proof Hwf as (Hscan & _ & _ & _ & Hlen & Hrange & _).
  destruct (scan_chunk _ _ _ Hscan HI) as [Hnext _].
  pose proof (payload_length buf cs cI Hscan HI) as Hpl.
  destruct (recorded_slot buf cs k Hscan Hrange Hk) as [He _]. simpl in He.
  rewrite <- (slice_slice _ (payload_at cI) (payload_len cI)) by lia.
  rewrite HsI.
  rewrite rewrite_into_slot with (e := MCIN.mk (slot_of (filter (has_tag tag_MCNK) cs) k).1
                                        (slot_of (filter (has_tag tag_MCNK) cs) k).2 0 0).
  - rewrite slice_slice by lia.
    rewrite rewrite_entry_layout
      by (apply length_slice; unfold payload_at, next_position in *; lia).
    by rewrite !slice_slice by lia.
  - rewrite length_vec_to_list. lia.
  - exact He.
Qed.

(** Running the pass on its own result changes nothing. *)
Lemma repair_pass_idempotent (buf b1 : list byte) (d1 : OffsetFixData.t) :
  OffsetFix.result (OffsetFix.try_block OffsetRepairer.ops buf OffsetFixData.zero) = Done b1 d1 →
  OffsetFix.result (OffsetFix.try_block OffsetRepairer.ops b1 OffsetFixData.zero) = Done b1 d1.
Proof.
  intros Hres.
  destruct (pass_Done _ _ _ Hres) as (cs & cI & m & w & Hwf & -> & ->).
  destruct (fix_steps_keep_form buf cs cI m w Hwf) as (_ & _ & _ & _ & _ & Hwf').
  destruct (repaired_payloads buf cs cI m w Hwf) as (HsI & HsM & HsW).
  destruct (chunks_known _ _ _ _ _ Hwf) as (HI & HM & HW & _).
  set (b1 := repaired buf (scanned_data cs m w) cI m w) in *.
  rewrite (pass_returns b1 cs cI m w Hwf').
  f_equal.
  pose proof Hwf as (Hscan & _ & _ & _ & Hlen & _).
  pose proof Hwf' as (Hscan' & _).
  destruct (scan_chunk _ _ _ Hscan' HI) as [HnI _].
  destruct (scan_chunk _ _ _ Hscan' HM) as [HnM _].
  destruct (scan_chunk _ _ _ Hscan' HW) as [HnW _].
  unfold repaired.
  rewrite (map_payload_id _ b1 cI); [|done|].
  2:{ rewrite HsI. apply rewrite_into_idem.
      rewrite length_vec_to_list, (payload_length buf cs) by done. lia. }
  rewrite (map_payload_id _ b1 m); [|done|].
  2:{ rewrite HsM. apply translate_placements_idem. unfold doodad_size; lia. }
  apply map_payload_id; [done|].
  rewrite HsW. apply translate_placements_idem. unfold object_size; lia.
Qed.

(** C6.  Idempotence of the repair.  If [b1] is what a repair pass returned,
    a run of the repair driver on a file holding [b1] exits 0 and writes [b1]
    to the output path, leaving [b1] in the input file (output path distinct
    from the input path and writable). *)
Theorem offset_repair_idempotent (buf b1 : list byte) (d1 : OffsetFixData.t) (fs : FS)
    (prog inp out : string) :
  OffsetFix.result (OffsetFix.try_block OffsetRepairer.ops buf OffsetFixData.zero) = Done b1 d1 →
  open_rw fs inp = Some b1 →
  inp ≠ out →
  out ∉ readonly fs →
  let o := OffsetFix.main OffsetRepairer.ops [prog; inp; out] fs in
  OffsetFix.exit_code o = 0
  ∧ files (OffsetFix.fs_after o) !! out = Some b1
  ∧ files (OffsetFix.fs_after o) !! inp = Some b1.
Proof.
  intros Hres Hopen Hne Hout.
  pose proof (repair_pass_idempotent _ _ _ Hres) as Hagain.
  simpl.
  destruct (main_ending OffsetRepairer.ops [prog; inp; out] fs) as
    [Hargc | Hargc Hopen' | zoneFile e b Hargc Hopen' Hres'
     | zoneFile b d Hargc Hopen' Hres' Hro | zoneFile b d Hargc Hopen' Hres' Hro];
    simpl in *; try lia; try congruence.
  rewrite Hopen in Hopen'. injection Hopen' as <-.
  rewrite Hagain in Hres'. injection Hres' as <- <-.
  split_and!; [done | |].
  { rewrite lookup_insert_eq. by rewrite lookup_insert_ne, lookup_insert_eq by done. }
  by rewrite lookup_insert_ne, lookup_insert_ne, lookup_insert_eq by done.
Qed.

Lemma MCIN_bytes_of_bytes (bs : list byte) :
  length bs = 16%nat → MCIN_bytes (MCIN_of_bytes bs) = bs.
Proof.
  intros H.
  unfold MCIN_bytes, MCIN_of_bytes. cbn [MCIN.offset MCIN.size MCIN.temp1 MCIN.temp2].
  rewrite !u32_bytes_le32 by (rewrite length_slice; lia).
  do 16 (destruct bs as [|? bs]; [done|]). by destruct bs.
Qed.

Lemma MCIN_of_bytes_bytes (e : MCIN.t) :
  MCIN_of_bytes (MCIN_bytes e)
  = MCIN.mk (wrap32 (MCIN.offset e)) (wrap32 (MCIN.size e))
            (wrap32 (MCIN.temp1 e)) (wrap32 (MCIN.temp2 e)).
Proof.
  unfold MCIN_of_bytes, MCIN_bytes. by rewrite <- !le32_u32_bytes.
Qed.

Lemma length_index_bytes (es : list MCIN.t) :
  length (index_bytes es) = (16 * length es)%nat.
Proof.
  induction es as [|e es IH]; [done|]. unfold index_bytes in *.
  rewrite fmap_cons, concat_cons, length_app, IH. cbn [length]. unfold MCIN_bytes.
  rewrite !length_app, !length_u32_bytes. lia.
Qed.

(** The reserved half of every slot of the index survives [rewrite_into]. *)
Lemma rewrite_into_reserved (es : list MCIN.t) (p : list byte) (k : nat) :
  (length es * 16 ≤ length p)%nat → (k < length es)%nat →
  slice (rewrite_into es p) (k * 16 + 8) 8 = slice p (k * 16 + 8) 8.
Proof.
  intros Hp Hk. destruct (lookup_lt_is_Some_2 es k Hk) as [e He].
  rewrite <- (slice_slice _ (k * 16) 16 8 8) by lia.
  rewrite rewrite_into_blocks.
  rewrite (map_blocks_block 16 _ p k (rewrite_entry e)).
  - rewrite <- (slice_slice p (k * 16) 16 8 8) by lia.
    unfold rewrite_entry.
    assert (Hs : length (slice p (k * 16) 16) = 16%nat) by (apply length_slice; lia).
    revert Hs. generalize (slice p (k * 16) 16). intros slot Hs.
    unfold slice. rewrite app_assoc, drop_app_length' by done. done.
  - apply Forall_fmap, Forall_forall. intros e' _. apply rewrite_entry_block.
  - by rewrite length_fmap.
  - by rewrite list_lookup_fmap, He.
Qed.

Lemma index_bytes_slot (es : list MCIN.t) (k : nat) (e : MCIN.t) :
  es !! k = Some e → slice (index_bytes es) (k * 16) 16 = MCIN_bytes e.
Proof.
  revert k. induction es as [|e0 es IH]; intros k Hk; [done|].
  unfold index_bytes in *. rewrite fmap_cons, concat_cons. unfold slice in *.
  assert (Hlen : length (MCIN_bytes e0) = 16%nat) by done.
  destruct k as [|k]; simpl in Hk.
  - injection Hk as ->. rewrite drop_0. by apply take_app_length'.
  - replace (S k * 16)%nat with (16 + k * 16)%nat by lia.
    rewrite <- drop_drop. rewrite drop_app_length' by done. by apply IH.
Qed.

(** A buffer is the concatenation of its 16-byte slots. *)
Lemma index_bytes_decode (n : nat) (p : list byte) :
  length p = (n * 16)%nat →
  index_bytes ((λ k, MCIN_of_bytes (slice p (k * 16) 16)) <$> seq 0 n) = p.
Proof.
  revert p. induction n as [|n IH]; intros p Hp.
  - by destruct p.
  - rewrite seq_S, fmap_app. unfold index_bytes in *. rewrite fmap_app, concat_app.
    change (concat (MCIN_bytes <$> ((λ k, MCIN_of_bytes (slice p (k * 16) 16)) <$> [(0 + n)%nat])))
      with (MCIN_bytes (MCIN_of_bytes (slice p (n * 16) 16)) ++ []).
    rewrite app_nil_r.
    transitivity (take (n * 16) p ++ drop (n * 16) p); [|apply take_drop]. f_equal.
    + etransitivity; [|apply (IH (take (n * 16) p)); rewrite length_take; lia].
      f_equal. f_equal. apply list_fmap_ext. intros i k Hk.
      apply lookup_seq in Hk as [-> Hi]. simpl. f_equal.
      apply slice_ext. intros j Hj. symmetry. apply lookup_take_lt. lia.
    + rewrite MCIN_bytes_of_bytes by (apply length_slice; lia).
      unfold slice. apply take_ge. rewrite length_drop. lia.
Qed.

(** C8.  Reserved fields of the index.  The codec: every payload of 4096
    bytes decodes; an index chunk that decodes has 256 entries, encodes back
    to the bytes it was read from, and the two reserved fields of entry [k]
    are the bytes 8..11 and 12..15 of slot [k]; encoding writes the reserved
    fields of entry [k] to the bytes 8..15 of slot [k]; an entry read from its
    16 bytes and written back gives the same 16 bytes.  The repair: after the
    pass, and after the index step on any state, the bytes 8..15 of each of
    the 256 slots of the index chunk are the bytes the file held before. *)
Theorem reserved_fields_preserved :
  (∀ p es,
     decode_index p = Some es →
     length es = 256%nat
     ∧ encode_index es = p
     ∧ ∀ (k : nat) e,
         es !! k = Some e →
         u32_bytes (MCIN.temp1 e) = slice p (k * 16 + 8) 4
         ∧ u32_bytes (MCIN.temp2 e) = slice p (k * 16 + 12) 4
         ∧ slice (encode_index es) (k * 16 + 8) 8 = slice p (k * 16 + 8) 8)
  ∧ (∀ es (k : nat) e,
       es !! k = Some e →
       slice (encode_index es) (k * 16 + 8) 8
       = u32_bytes (MCIN.temp1 e) ++ u32_bytes (MCIN.temp2 e))
  ∧ (∀ bs, length bs = 16%nat → MCIN_bytes (MCIN_of_bytes bs) = bs)
  ∧ (∀ buf b1 d1 cs cI (k : nat),
       OffsetFix.result (OffsetFix.try_block OffsetRepairer.ops buf OffsetFixData.zero)
       = Done b1 d1 →
       scan buf = Some cs →
       find_chunk tag_MCIN cs = Some cI →
       (k < 256)%nat →
       slice b1 (payload_at cI + k * 16 + 8) 8 = slice buf (payload_at cI + k * 16 + 8) 8)
  ∧ (∀ buf d b' d' cs cI (k : nat),
       OffsetRepairer.fixMCNKs buf d = Done b' d' →
       scan buf = Some cs →
       find_chunk tag_MCIN cs = Some cI →
       (k < 256)%nat →
       slice b' (payload_at cI + k * 16 + 8) 8 = slice buf (payload_at cI + k * 16 + 8) 8)
  ∧ (∀ p, length p = 4096%nat → ∃ es, decode_index p = Some es).
Proof.
  split_and!; [| | | | |intros p Hp; unfold decode_index; rewrite decide_True by done; eauto].
  - intros p es. unfold decode_index, encode_index.
    case_decide as Hp; [|done]. intros Hes.
    assert (es = (λ k, MCIN_of_bytes (slice p (k * 16) 16)) <$> seq 0 256) as ->
      by congruence.
    clear Hes.
    assert (Henc : index_bytes ((λ k, MCIN_of_bytes (slice p (k * 16) 16)) <$> seq 0 256) = p)
      by (apply index_bytes_decode; lia).
    split; [by rewrite length_fmap, length_seq|]. split; [done|].
    intros k e He. rewrite Henc.
    rewrite list_lookup_fmap in He.
    destruct (seq 0 256 !! k) as [i|] eqn:Hi; [|done].
    apply lookup_seq in Hi as [-> Hk]. simpl in He. injection He as <-.
    unfold MCIN_of_bytes. cbn [MCIN.temp1 MCIN.temp2].
    rewrite !u32_bytes_le32 by (rewrite length_slice;
      [done | rewrite length_slice; lia]).
    rewrite !slice_slice by lia. done.
  - intros es k e He. unfold encode_index.
    rewrite <- (slice_slice _ (k * 16) 16 8 8) by lia.
    rewrite (index_bytes_slot es k e He). done.
  - apply MCIN_bytes_of_bytes.
  - intros buf b1 d1 cs cI k Hres Hscan HcI Hk.
    destruct (pass_Done _ _ _ Hres) as (cs' & cI' & m & w & Hwf & -> & ->).
    pose proof Hwf as (Hscan' & HcI' & _ & _ & Hlen & _). simplify_eq.
    destruct (repaired_payloads buf cs cI m w Hwf) as (HsI & _).
    rewrite <- Nat.add_assoc.
    rewrite <- (slice_slice _ (payload_at cI) (payload_len cI)) by lia.
    rewrite <- (slice_slice buf (payload_at cI) (payload_len cI)) by lia.
    rewrite HsI. apply rewrite_into_reserved.
    + destruct (chunks_known _ _ _ _ _ Hwf) as (HI & _).
      rewrite length_vec_to_list, (payload_length buf cs) by done. lia.
    + by rewrite length_vec_to_list.
  - intros buf d b' d' cs cI k H Hscan HcI Hk.
    destruct (fixMCNKs_Done _ _ _ _ H) as (-> & cs' & cI' & Hscan' & HcI' & Hlen & ->).
    simplify_eq.
    destruct (find_chunk_Some _ _ _ HcI) as (HI & _).
    destruct (scan_chunk _ _ _ Hscan HI) as [Hnext _].
    pose proof (payload_length buf cs cI Hscan HI) as Hpl.
    rewrite <- Nat.add_assoc.
    rewrite <- (slice_slice _ (payload_at cI) (payload_len cI)) by lia.
    rewrite <- (slice_slice buf (payload_at cI) (payload_len cI)) by lia.
    rewrite map_payload_slice.
    + apply rewrite_into_reserved; rewrite length_vec_to_list; lia.
    + done.
    + rewrite length_rewrite_into; rewrite ?length_vec_to_list; lia.
Qed.






(** C4.  Capacity and layout of the chunk index.  In every repair state the
    index has 256 entries (and 256 recorded terrain offsets); an entry is
    written as 16 bytes: the offset in bytes 0..3, the size in bytes 4..7, the
    two reserved fields in bytes 8..11 and 12..15, each a little-endian
    uint32, and these read back as the four fields; the table is written as
    4096 bytes; recording a terrain chunk beyond slot 255 leaves the state as
    it is.  In a file: the index step returns only on a file whose index chunk
    has a payload of exactly 4096 bytes, and leaves the length of the file and
    its chunks as they are, slot [k] of the index chunk holding entry [k] of
    the state in that layout, with the reserved fields of the file; after a
    whole pass slot [k] holds the offset and the size of the [k]-th terrain
    chunk. *)
Theorem chunk_index_fixed_capacity :
  (∀ d : OffsetFixData.t,
     length (vec_to_list (OffsetFixData.positions d)) = 256%nat
     ∧ length (vec_to_list (OffsetFixData.positionsMCNK d)) = 256%nat)
  ∧ (∀ e, length (MCIN_bytes e) = 16%nat
          ∧ slice (MCIN_bytes e) 0 4 = u32_bytes (MCIN.offset e)
          ∧ slice (MCIN_bytes e) 4 4 = u32_bytes (MCIN.size e)
          ∧ slice (MCIN_bytes e) 8 4 = u32_bytes (MCIN.temp1 e)
          ∧ slice (MCIN_bytes e) 12 4 = u32_bytes (MCIN.temp2 e))
  ∧ MCIN_bytes (MCIN.mk 4104 3 (2 ^ 32 - 1) 258)
    = [x08; x10; x00; x00;  x03; x00; x00; x00;  xff; xff; xff; xff;  x02; x01; x00; x00]
  ∧ (∀ e, MCIN_of_bytes (MCIN_bytes e)
          = MCIN.mk (wrap32 (MCIN.offset e)) (wrap32 (MCIN.size e))
                    (wrap32 (MCIN.temp1 e)) (wrap32 (MCIN.temp2 e)))
  ∧ (∀ d : OffsetFixData.t,
       length (index_bytes (vec_to_list (OffsetFixData.positions d))) = 4096%nat)
  ∧ (∀ (k : nat) c d, (256 ≤ k)%nat → record_MCNK k c d = d)
  ∧ (∀ buf d b' d',
       OffsetRepairer.fixMCNKs buf d = Done b' d' →
       d' = d ∧ length b' = length buf
       ∧ ∃ cs cI,
           scan buf = Some cs ∧ scan b' = Some cs
           ∧ find_chunk tag_MCIN cs = Some cI
           ∧ payload_len cI = 4096%nat
           ∧ ∀ (k : nat) e,
               vec_to_list (OffsetFixData.positions d) !! k = Some e →
               slice b' (payload_at cI + k * 16) 16
               = MCIN_bytes (MCIN.mk (MCIN.offset e) (MCIN.size e)
                               (le32 (slice buf (payload_at cI + k * 16 + 8) 4))
                               (le32 (slice buf (payload_at cI + k * 16 + 12) 4))))
  ∧ (∀ buf b' d',
       OffsetFix.result (OffsetFix.try_block OffsetRepairer.ops buf OffsetFixData.zero)
       = Done b' d' →
       length b' = length buf
       ∧ ∃ cs cI,
           scan buf = Some cs ∧ scan b' = Some cs
           ∧ find_chunk tag_MCIN cs = Some cI
           ∧ payload_len cI = 4096%nat
           ∧ ∀ k : nat, (k < 256)%nat →
               slice b' (payload_at cI + k * 16) 16
               = MCIN_bytes (MCIN.mk (slot_of (filter (has_tag tag_MCNK) cs) k).1
                               (slot_of (filter (has_tag tag_MCNK) cs) k).2
                               (le32 (slice buf (payload_at cI + k * 16 + 8) 4))
                               (le32 (slice buf (payload_at cI + k * 16 + 12) 4)))).
Proof.
  split_and!.
  - intros d. by rewrite !length_vec_to_list.
  - intros e. split_and!; done.
  - by vm_compute.
  - apply MCIN_of_bytes_bytes.
  - intros d. by rewrite length_index_bytes, length_vec_to_list.
  - intros k c d Hk. unfold record_MCNK, vset.
    destruct (decide (k < 256)%nat); [lia|]. by destruct d.
  - intros buf d b' d' H.
    destruct (fixMCNKs_Done _ _ _ _ H) as (-> & cs & cI & Hscan & HcI & Hlen & ->).
    destruct (find_chunk_Some _ _ _ HcI) as (HI & _).
    destruct (scan_chunk _ _ _ Hscan HI) as [Hnext _].
    assert (Hf : length (rewrite_into (vec_to_list (OffsetFixData.positions d))
                           (slice buf (payload_at cI) (payload_len cI))) = payload_len cI).
    { rewrite length_rewrite_into; rewrite ?length_vec_to_list;
        rewrite (payload_length buf cs) by done; lia. }
    split; [done|]. split; [by apply length_map_payload|].
    exists cs, cI. split_and!; try done.
    + by apply scan_map_payload.
    + intros k e He. apply (index_written_slot buf cs); try done.
      rewrite length_vec_to_list. lia.
  - intros buf b' d' Hres.
    destruct (pass_Done _ _ _ Hres) as (cs & cI & m & w & Hwf & -> & ->).
    pose proof Hwf as (Hscan & HcI & _ & _ & Hlen & _).
    destruct (fix_steps_keep_form buf cs cI m w Hwf) as (H1 & H2 & H3 & Hwf1 & Hwf2 & Hwf3).
    destruct (chunks_known _ _ _ _ _ Hwf) as (HI & HM & HW & _).
    pose proof Hwf1 as (Hs1 & _). pose proof Hwf2 as (Hs2 & _). pose proof Hwf3 as (Hs3 & _).
    split.
    + unfold repaired.
      destruct (scan_chunk _ _ _ Hscan HI) as [HnI _].
      destruct (scan_chunk _ _ _ Hs1 HM) as [HnM _].
      destruct (scan_chunk _ _ _ Hs2 HW) as [HnW _].
      rewrite !length_map_payload; done.
    + exists cs, cI. split_and!; try done.
      intros k Hk. by apply repaired_slot.
Qed.

(** ** The existing tiles of a legacy world table *)

Lemma existing_tiles_NoDup (w : LegacyWdt) : NoDup (existing_tiles w).
Proof.
  unfold existing_tiles.
  eapply sublist_NoDup; [|apply fmap_sublist, sublist_filter].
  rewrite fst_zip by (rewrite length_fmap, length_seq; lia).
  apply NoDup_fmap_2; [|apply NoDup_seq]. intros a b. lia.
Qed.

(** A tile is listed exactly when the offset table holds a non-zero offset
    for it. *)
Lemma existing_tiles_elem (w : LegacyWdt) (n : Z) :
  n ∈ existing_tiles w ↔
  ∃ off, 0 ≤ n ∧ main_offsets w !! Z.to_nat n = Some off ∧ off ≠ 0.
Proof.
  unfold existing_tiles. rewrite list_elem_of_fmap. split.
  - intros ([i off] & -> & [Hoff Hin]%list_elem_of_filter). simpl in *.
    apply bool_decide_unpack in Hoff.
    apply list_elem_of_lookup in Hin as [k Hk].
    apply lookup_zip_with_Some in Hk as (i' & off' & [= <- <-] & Hi & Ho).
    rewrite list_lookup_fmap in Hi.
    destruct (seq 0 (length (main_offsets w)) !! k) as [j|] eqn:Ej; [|done].
    apply lookup_seq in Ej as [-> _]. injection Hi as <-.
    exists off. rewrite Nat2Z.id. split; [lia|done].
  - intros (off & Hn & Hat & Hoff).
    exists (n, off). split; [done|]. apply list_elem_of_filter. split.
    + simpl. by apply bool_decide_pack.
    + apply list_elem_of_lookup. exists (Z.to_nat n).
      apply lookup_zip_with_Some. exists n, off. split_and!; [done| |done].
      rewrite list_lookup_fmap, lookup_seq_lt by (by apply lookup_lt_Some in Hat).
      simpl. f_equal. lia.
Qed.

(** Inside the bounds the unchecked read is the element. *)
Lemma at_index_inside {W : WowFiles} (v : list Z) (n off : Z) :
  0 ≤ n → v !! Z.to_nat n = Some off → Fixes.at_index v n = Some off.
Proof.
  intros Hn Hv. unfold Fixes.at_index.
  apply lookup_lt_Some in Hv as Hlt. rewrite decide_True by lia. exact Hv.
Qed.

(** ** The theorems at work on the test data *)


Lemma repair_exit_status_witness :
  let thrown :=
    OffsetFix.main ops_doodads_throw ["offsetFix"; "in.adt"; "out.adt"] sample_fs in
  let unwritable :=
    OffsetFix.main OffsetRepairer.ops ["offsetFix"; "in.adt"; "out.adt"] locked_fs in
  OffsetFix.exit_code thrown ≠ 0
  ∧ OffsetFix.cerr thrown ≠ ""
  ∧ "out.adt" ∈ readonly locked_fs
  ∧ OffsetFix.exit_code unwritable = 1
  ∧ OffsetFix.cerr unwritable = "Error creating output file: out.adt" +:+ endl.
Proof.
  assert (H : OffsetFix.exit_code
                (OffsetFix.main ops_doodads_throw ["offsetFix"; "in.adt"; "out.adt"] sample_fs)
              ≠ 0) by (vm_compute; discriminate).
  assert (Hro : "out.adt" ∈ readonly locked_fs) by (vm_compute; reflexivity).
  assert (Hargc : (3 ≤ length ["offsetFix"; "in.adt"; "out.adt"])%nat) by (simpl; lia).
  assert (Hopen : open_rw locked_fs "in.adt" = Some sample_file) by (vm_compute; reflexivity).
  assert (Hres : OffsetFix.result
                   (OffsetFix.try_block OffsetRepairer.ops sample_file OffsetFixData.zero)
                 = Done sample_repaired sample_state) by (vm_compute; reflexivity).
  split; [exact H|].
  split; [exact (proj1 (proj1 (proj2 (repair_exit_status ops_doodads_throw
                                        ["offsetFix"; "in.adt"; "out.adt"] sample_fs)) H))|].
  split; [exact Hro|].
  exact (proj1 (proj2 (proj2 (proj2 (proj2 (proj2
           (repair_exit_status OffsetRepairer.ops
              ["offsetFix"; "in.adt"; "out.adt"] locked_fs))))))
           sample_file sample_repaired sample_state Hargc Hopen Hres Hro).
Defined.

Lemma repair_failure_effects_witness :
  let o := OffsetFix.main ops_doodads_throw ["offsetFix"; "in.adt"; "out.adt"] sample_fs in
  OffsetFix.exit_code o ≠ 0
  ∧ readonly (OffsetFix.fs_after o) = readonly sample_fs
  ∧ files (OffsetFix.fs_after o) !! "out.adt" = files sample_fs !! "out.adt".
Proof.
  assert (H : OffsetFix.exit_code
                (OffsetFix.main ops_doodads_throw ["offsetFix"; "in.adt"; "out.adt"] sample_fs)
              ≠ 0) by (vm_compute; discriminate).
  split; [exact H|].
  destruct (repair_failure_effects ops_doodads_throw
              ["offsetFix"; "in.adt"; "out.adt"] sample_fs H) as (Hro & Hother & _).
  split; [exact Hro|]. apply Hother. simpl. discriminate.
Defined.

Lemma conversion_writes_one_file_per_tile_witness :
  let c := @Fixes.main (legacy_files sample_disk) ["fixes"; "world.wdt"] in
  existing_tiles sample_wdt = [tile_number 12 34; tile_number 12 35]
  ∧ Fixes.status c = Some 0
  ∧ Fixes.wdt_files c = 1%nat
  ∧ Fixes.adt_files (tile_number 12 34) c = 1%nat
  ∧ Fixes.adt_files (tile_number 12 35) c = 1%nat
  ∧ Fixes.adt_files (tile_number 12 36) c = 0%nat.
Proof.
  split; [vm_compute; reflexivity|].
  destruct (@conversion_writes_one_file_per_tile (legacy_files sample_disk)
              ["fixes"; "world.wdt"] sample_wdt (existing_tiles sample_wdt))
    as (Hstatus & Hwdt & Hadt).
  - simpl. lia.
  - vm_compute; reflexivity.
  - reflexivity.
  - apply existing_tiles_NoDup.
  - intros n Hn. apply existing_tiles_elem in Hn as (off & Hpos & Hoff & _).
    exists off, (off, n), (off, n).
    split; [exact (at_index_inside _ _ _ Hpos Hoff)|]. split; reflexivity.
  - split; [exact Hstatus|]. split; [exact Hwdt|].
    split; [|split]; rewrite Hadt; vm_compute; reflexivity.
Defined.

Lemma chunk_index_fixed_capacity_witness :
  (256 ≤ 300)%nat
  ∧ record_MCNK 300 (mkChunk tag_MCNK 0 0) OffsetFixData.zero = OffsetFixData.zero
  ∧ length sample_repaired = length sample_file
  ∧ ∃ cI, find_chunk tag_MCIN (default [] (scan sample_file)) = Some cI
          ∧ payload_len cI = 4096%nat
          ∧ slice sample_repaired (payload_at cI + 1 * 16) 16
            = [x41; x10; x00; x00;  x00; x00; x00; x00;  xff; xff; xff; xff;
               xff; xff; xff; xff].
Proof.
  assert (H : (256 ≤ 300)%nat) by lia.
  assert (Hres : OffsetFix.result
                   (OffsetFix.try_block OffsetRepairer.ops sample_file OffsetFixData.zero)
                 = Done sample_repaired sample_state) by (vm_compute; reflexivity).
  assert (Hscan : scan sample_file = Some (default [] (scan sample_file)))
    by (vm_compute; reflexivity).
  split; [exact H|].
  split; [exact (proj1 (proj2 (proj2 (proj2 (proj2 (proj2 chunk_index_fixed_capacity)))))
                   300%nat (mkChunk tag_MCNK 0 0) OffsetFixData.zero H)|].
  destruct (proj2 (proj2 (proj2 (proj2 (proj2 (proj2 (proj2 chunk_index_fixed_capacity))))))
              sample_file sample_repaired sample_state Hres)
    as (Hlen & cs & cI & Hscan' & _ & HcI & Hsize & Hslots).
  assert (Hcs : default [] (scan sample_file) = cs) by (rewrite Hscan'; reflexivity).
  rewrite <- Hcs in HcI, Hslots.
  split; [exact Hlen|].
  exists cI. split; [exact HcI|]. split; [exact Hsize|].
  rewrite (Hslots 1%nat) by lia.
  assert (HcI' : find_chunk tag_MCIN (default [] (scan sample_file))
                 = Some (mkChunk tag_MCIN 0 4096)) by (vm_compute; reflexivity).
  rewrite HcI' in HcI. injection HcI as <-.
  vm_compute. reflexivity.
Defined.

Lemma offset_repair_idempotent_witness :
  let o := OffsetFix.main OffsetRepairer.ops ["offsetFix"; "fixed.adt"; "again.adt"] repaired_fs in
  OffsetFix.result (OffsetFix.try_block OffsetRepairer.ops sample_file OffsetFixData.zero)
  = Done sample_repaired sample_state
  ∧ OffsetFix.exit_code o = 0
  ∧ files (OffsetFix.fs_after o) !! "again.adt" = Some sample_repaired
  ∧ files (OffsetFix.fs_after o) !! "fixed.adt" = Some sample_repaired.
Proof.
  assert (H : OffsetFix.result
                (OffsetFix.try_block OffsetRepairer.ops sample_file OffsetFixData.zero)
              = Done sample_repaired sample_state) by (vm_compute; reflexivity).
  split; [exact H|].
  apply (offset_repair_idempotent sample_file sample_repaired sample_state repaired_fs
           "offsetFix" "fixed.adt" "again.adt" H).
  - vm_compute; reflexivity.
  - discriminate.
  - apply not_elem_of_empty.
Defined.

Lemma reserved_fields_preserved_witness :
  let cI := mkChunk tag_MCIN 0 4096 in
  find_chunk tag_MCIN (default [] (scan sample_file)) = Some cI
  ∧ slice sample_repaired (payload_at cI + 0 * 16 + 8) 8
    = slice sample_file (payload_at cI + 0 * 16 + 8) 8
  ∧ slice sample_repaired (payload_at cI + 255 * 16 + 8) 8
    = slice sample_file (payload_at cI + 255 * 16 + 8) 8
  ∧ ∃ es, decode_index (slice sample_repaired (payload_at cI) 4096) = Some es
          ∧ encode_index es = slice sample_repaired (payload_at cI) 4096.
Proof.
  assert (H : OffsetFix.result
                (OffsetFix.try_block OffsetRepairer.ops sample_file OffsetFixData.zero)
              = Done sample_repaired sample_state) by (vm_compute; reflexivity).
  assert (Hscan : scan sample_file = Some (default [] (scan sample_file)))
    by (vm_compute; reflexivity).
  assert (HcI : find_chunk tag_MCIN (default [] (scan sample_file))
                = Some (mkChunk tag_MCIN 0 4096)) by (vm_compute; reflexivity).
  assert (Hdec : decode_index (slice sample_repaired (payload_at (mkChunk tag_MCIN 0 4096)) 4096)
                 = Some (default [] (decode_index
                           (slice sample_repaired (payload_at (mkChunk tag_MCIN 0 4096)) 4096))))
    by (vm_compute; reflexivity).
  split; [exact HcI|]. split; [|split].
  - apply (proj1 (proj2 (proj2 (proj2 reserved_fields_preserved)))
             sample_file sample_repaired sample_state _ _ 0%nat H Hscan HcI). lia.
  - apply (proj1 (proj2 (proj2 (proj2 reserved_fields_preserved)))
             sample_file sample_repaired sample_state _ _ 255%nat H Hscan HcI). lia.
  - eexists. split; [exact Hdec|].
    exact (proj1 (proj2 (proj1 reserved_fields_preserved _ _ Hdec))).
Defined.


(** * Further properties of the drivers *)

(** ** The repair driver *)

Lemma try_block_calls_nonempty (ops : RepairOps) (buf : list byte) (d : OffsetFixData.t) :
  OffsetFix.calls (OffsetFix.try_block ops buf d) ≠ [].
Proof.
  destruct (try_block_cases ops buf d)
    as [(e & b & _ & _ & ->)
       | (b1 & d1 & _ & [(e & b & _ & _ & ->) | (b2 & d2 & _ & _ & [k ->] & _)])]; done.
Qed.

(** X1.  Frame of the repair driver.  Whatever the steps do and however the
    run ends, the set of paths that cannot be written is unchanged and every
    file other than argv[1] and argv[2] holds what it held. *)
Theorem repair_frame (ops : RepairOps) (argv : list string) (fs : FS) :
  let o := OffsetFix.main ops argv fs in
  readonly (OffsetFix.fs_after o) = readonly fs
  ∧ ∀ p, p ≠ nth 1 argv "" → p ≠ nth 2 argv "" →
         files (OffsetFix.fs_after o) !! p = files fs !! p.
Proof.
  simpl.
  destruct (main_ending ops argv fs) as
    [Hargc | Hargc Hopen | zoneFile e buf Hargc Hopen Hres
     | zoneFile buf d Hargc Hopen Hres Hro | zoneFile buf d Hargc Hopen Hres Hro]; simpl.
  all: split; [done|]; intros p H1 H2; try done.
  all: by rewrite ?lookup_insert_ne by done.
Qed.

(** X2.  No step without an input.  No step of the pass is called exactly
    when fewer than two arguments are given or argv[1] cannot be opened for
    reading and writing; the run then leaves the whole file system as it is
    (in particular it does not create the input), exits 1 and prints nothing
    on the standard output. *)
Theorem repair_needs_input (ops : RepairOps) (argv : list string) (fs : FS) :
  let o := OffsetFix.main ops argv fs in
  (OffsetFix.steps_called o = [] ↔
     (length argv < 3)%nat ∨ open_rw fs (nth 1 argv "") = None)
  ∧ (OffsetFix.steps_called o = [] →
       OffsetFix.fs_after o = fs ∧ OffsetFix.exit_code o = 1 ∧ OffsetFix.cout o = "").
Proof.
  simpl.
  destruct (main_ending ops argv fs) as
    [Hargc | Hargc Hopen | zoneFile e buf Hargc Hopen Hres
     | zoneFile buf d Hargc Hopen Hres Hro | zoneFile buf d Hargc Hopen Hres Hro]; simpl.
  1,2: split; [split; auto | done].
  all: pose proof (try_block_calls_nonempty ops zoneFile OffsetFixData.zero) as Hne.
  all: split; [split; [done | intros [?|?]; [lia | congruence]] | done].
Qed.

(** X3.  One stream per run.  The driver exits 0 exactly when it writes
    nothing to the standard error stream, and exactly when it writes its
    success messages to the standard output. *)
Theorem repair_streams (ops : RepairOps) (argv : list string) (fs : FS) :
  let o := OffsetFix.main ops argv fs in
  (OffsetFix.exit_code o = 0 ↔ OffsetFix.cerr o = "")
  ∧ (OffsetFix.exit_code o = 0 ↔ OffsetFix.cout o ≠ "").
Proof.
  simpl.
  destruct (main_ending ops argv fs) as
    [Hargc | Hargc Hopen | zoneFile e buf Hargc Hopen Hres
     | zoneFile buf d Hargc Hopen Hres Hro | zoneFile buf d Hargc Hopen Hres Hro]; simpl.
  all: split; split; try done.
Qed.

(** X5.  Repair onto the input path.  Whatever the steps do, a run that exits
    0 with argv[2] equal to argv[1] leaves that file empty. *)
Theorem repair_onto_itself_empties_file (ops : RepairOps) (argv : list string) (fs : FS) :
  let o := OffsetFix.main ops argv fs in
  nth 1 argv "" = nth 2 argv "" →
  OffsetFix.exit_code o = 0 →
  files (OffsetFix.fs_after o) !! nth 1 argv "" = Some [].
Proof.
  simpl.
  destruct (main_ending ops argv fs) as
    [Hargc | Hargc Hopen | zoneFile e buf Hargc Hopen Hres
     | zoneFile buf d Hargc Hopen Hres Hro | zoneFile buf d Hargc Hopen Hres Hro]; simpl.
  all: intros Hsame Hexit; try done.
  rewrite <- Hsame. rewrite lookup_insert_eq. by rewrite lookup_insert_eq.
Qed.

(** ** The conversion driver *)

Section ConversionRuns.
Context {W : WowFiles}.

Lemma tile_file_converts (wdtName : string) (w : WdtAlpha) (n : Z) :
  Fixes.tile_converts wdtName w n ↔ ∃ f, tile_file wdtName w n f.
Proof.
  unfold Fixes.tile_converts, tile_file. split.
  - intros (off & a & lk & ? & ? & ?). exists (Fixes.AdtFile n lk), off, a, lk. done.
  - intros (f & off & a & lk & ? & ? & ? & _). by exists off, a, lk.
Qed.

(** The loop, tile by tile: it ends with status 0 after writing the file of
    every tile, or aborts at the first tile [n] that does not convert, having
    written the files of the tiles before [n] only. *)
Lemma convert_adts_run (wdtName : string) (w : WdtAlpha) (nums : list Z) (out : list Fixes.Written) :
  let c := Fixes.convert_adts wdtName (getAdtOffsetsInMain w) (getMdnmFileNames w)
             (getMonmFileNames w) nums out in
  Fixes.errors c = ""
  ∧ ((∃ ws, Fixes.status c = Some 0 ∧ Fixes.written c = out ++ ws
            ∧ Forall2 (tile_file wdtName w) nums ws)
     ∨ (∃ pre n post ws,
          nums = pre ++ n :: post
          ∧ ¬ Fixes.tile_converts wdtName w n
          ∧ Fixes.status c = None ∧ Fixes.written c = out ++ ws
          ∧ Forall2 (tile_file wdtName w) pre ws)).
Proof.
  revert out. induction nums as [|n nums IH]; intros out; simpl.
  - split; [done|]. left. exists []. by rewrite app_nil_r.
  - assert (Hstop : ∀ c, Fixes.status c = None → Fixes.written c = out →
              ¬ Fixes.tile_converts wdtName w n →
              (∃ ws, Fixes.status c = Some 0 ∧ Fixes.written c = out ++ ws
                     ∧ Forall2 (tile_file wdtName w) (n :: nums) ws)
              ∨ (∃ pre n0 post ws,
                   n :: nums = pre ++ n0 :: post
                   ∧ ¬ Fixes.tile_converts wdtName w n0
                   ∧ Fixes.status c = None ∧ Fixes.written c = out ++ ws
                   ∧ Forall2 (tile_file wdtName w) pre ws)).
    { intros c Hs Hw Hn. right. exists [], n, nums, [].
      rewrite app_nil_r. split_and!; done || constructor. }
    destruct (Fixes.at_index (getAdtOffsetsInMain w) n) as [off|] eqn:Hoff.
    2:{ split; [done|]. apply Hstop; [done..|].
        intros (o & a & lk & ? & _). congruence. }
    destruct (AdtAlpha_new wdtName off n) as [a|] eqn:Ha.
    2:{ split; [done|]. apply Hstop; [done..|].
        intros (o & a & lk & ? & ? & _). congruence. }
    destruct (toAdtLk a (getMdnmFileNames w) (getMonmFileNames w)) as [lk|] eqn:Hlk.
    2:{ split; [done|]. apply Hstop; [done..|].
        intros (o & a' & lk & ? & ? & ?). congruence. }
    assert (Hfile : tile_file wdtName w n (Fixes.AdtFile n lk)).
    { exists off, a, lk. done. }
    destruct (IH (out ++ [Fixes.AdtFile n lk])) as [Herr Hcases]. split; [done|].
    destruct Hcases as [(ws & Hs & Hw & Hall)
                       | (pre & n0 & post & ws & -> & Hn0 & Hs & Hw & Hall)].
    + left. exists (Fixes.AdtFile n lk :: ws). rewrite Hw, <- app_assoc.
      split_and!; try done. by constructor.
    + right. exists (n :: pre), n0, post, (Fixes.AdtFile n lk :: ws).
      rewrite Hw, <- app_assoc. split_and!; try done. by constructor.
Qed.

Lemma tile_files_count (n : Z) (wdtName : string) (w : WdtAlpha) (nums : list Z)
    (ws : list Fixes.Written) :
  Forall2 (tile_file wdtName w) nums ws →
  filter Fixes.is_wdt ws = []
  ∧ length (filter (Fixes.is_adt n) ws) = length (filter (λ m, m = n) nums).
Proof.
  intros H. apply area_files_count.
  eapply Forall2_impl; [exact H|]. intros m f (off & a & lk & _ & _ & _ & ->). eauto.
Qed.

(** X7.  What the conversion driver writes first.  It writes nothing exactly
    when no input path is given, or the legacy world table cannot be loaded,
    or cannot be converted; it exits 1 exactly when no input path is given;
    and whenever it writes, the first file is the world table and no other
    world-table file follows. *)
Theorem conversion_writes_nothing_iff (argv : list string) :
  let c := Fixes.main argv in
  (Fixes.written c = [] ↔
     (length argv < 2)%nat
     ∨ WdtAlpha_new (nth 1 argv "") = None
     ∨ ∃ w, WdtAlpha_new (nth 1 argv "") = Some w ∧ toWdt w = None)
  ∧ (Fixes.status c = Some 1 ↔ (length argv < 2)%nat)
  ∧ (∀ f ws, Fixes.written c = f :: ws → Fixes.is_wdt f = true ∧ filter Fixes.is_wdt ws = []).
Proof.
  simpl. unfold Fixes.main.
  destruct (length argv <? 2)%nat eqn:Hargc;
    [apply Nat.ltb_lt in Hargc | apply Nat.ltb_ge in Hargc].
  { split_and!; [split; auto | split; auto | done]. }
  destruct (WdtAlpha_new (nth 1 argv "")) as [w|] eqn:Hnew.
  2:{ split_and!; [split; auto | split; [done | lia] | done]. }
  destruct (toWdt w) as [wdt|] eqn:Hwdt.
  2:{ split_and!; [split; eauto | split; [done | lia] | done]. }
  destruct (convert_adts_run (nth 1 argv "") w (getExistingAdtsNumbers w) [Fixes.WdtFile wdt])
    as [_ Hrun]. simpl in Hrun.
  assert (Hshape : ∃ pre ws, Fixes.written
             (Fixes.convert_adts (nth 1 argv "") (getAdtOffsetsInMain w) (getMdnmFileNames w)
                (getMonmFileNames w) (getExistingAdtsNumbers w) [Fixes.WdtFile wdt])
             = Fixes.WdtFile wdt :: ws
           ∧ Forall2 (tile_file (nth 1 argv "") w) pre ws
           ∧ Fixes.status
               (Fixes.convert_adts (nth 1 argv "") (getAdtOffsetsInMain w) (getMdnmFileNames w)
                  (getMonmFileNames w) (getExistingAdtsNumbers w) [Fixes.WdtFile wdt])
             ≠ Some 1).
  { destruct Hrun as [(ws & Hs & Hw & Hall) | (pre & n & post & ws & _ & _ & Hs & Hw & Hall)].
    - exists (getExistingAdtsNumbers w), ws. rewrite Hs. done.
    - exists pre, ws. rewrite Hs. done. }
  destruct Hshape as (pre & ws & Hw & Hall & Hs). rewrite Hw.
  split_and!.
  - split; [done|]. intros [?|[?|(w' & ? & ?)]]; [lia | congruence | congruence].
  - split; [done | lia].
  - intros f ws' [= <- <-]. split; [done|].
    by destruct (tile_files_count 0 _ _ _ _ Hall).
Qed.

(** X8.  Success of a conversion.  Once the world table has loaded and
    converted, the driver exits 0 exactly when every listed tile converts
    (the unchecked read of its offset gives a value: the element of the offset
    table, or, for a number outside the table, whatever the machine finds
    there; its legacy area can be read at that offset and converts); it has
    then written the world table followed by the area files of the listed
    tiles, in the order of the list, each the conversion of the area at the
    offset read for its tile with the two name lists of the world table. *)
Theorem conversion_succeeds_iff (argv : list string) (w : WdtAlpha) (wdt : Wdt) :
  (2 ≤ length argv)%nat →
  WdtAlpha_new (nth 1 argv "") = Some w →
  toWdt w = Some wdt →
  let c := Fixes.main argv in
  (Fixes.status c = Some 0 ↔
     ∀ n, n ∈ getExistingAdtsNumbers w → Fixes.tile_converts (nth 1 argv "") w n)
  ∧ (Fixes.status c = Some 0 →
       ∃ ws, Fixes.written c = Fixes.WdtFile wdt :: ws
             ∧ Forall2 (tile_file (nth 1 argv "") w) (getExistingAdtsNumbers w) ws).
Proof.
  intros Hargc Hnew Hwdt. simpl. unfold Fixes.main.
  apply Nat.ltb_ge in Hargc. rewrite Hargc, Hnew, Hwdt.
  destruct (convert_adts_run (nth 1 argv "") w (getExistingAdtsNumbers w) [Fixes.WdtFile wdt])
    as [_ Hrun]. simpl in Hrun.
  destruct Hrun as [(ws & Hs & Hw & Hall) | (pre & n & post & ws & Hnums & Hn & Hs & Hw & Hall)].
  - rewrite Hs, Hw. split; [|eauto]. split; [|done]. intros _ n Hn.
    apply list_elem_of_lookup in Hn as [i Hi].
    destruct (Forall2_lookup_l _ _ _ _ _ Hall Hi) as (f & _ & Hf).
    apply tile_file_converts. eauto.
  - rewrite Hs. split; [|done]. split; [done|]. intros Hall'. exfalso. apply Hn, Hall'.
    rewrite Hnums. apply elem_of_app. right. by left.
Qed.

(** X9.  A tile that fails stops the conversion.  When the tiles listed
    before [n] convert and [n] does not (its area cannot be read or converted,
    or the read of its offset outside the table ends the process), the run
    ends there without an exit status of [main]: the world table and the area
    files of the tiles before [n] have been written, and nothing for [n] or
    for any tile listed after it. *)
Theorem conversion_stops_at_first_failure (argv : list string) (w : WdtAlpha) (wdt : Wdt)
    (pre post : list Z) (n : Z) :
  (2 ≤ length argv)%nat →
  WdtAlpha_new (nth 1 argv "") = Some w →
  toWdt w = Some wdt →
  getExistingAdtsNumbers w = pre ++ n :: post →
  (∀ k, k ∈ pre → Fixes.tile_converts (nth 1 argv "") w k) →
  ¬ Fixes.tile_converts (nth 1 argv "") w n →
  let c := Fixes.main argv in
  Fixes.status c = None
  ∧ ∃ ws, Fixes.written c = Fixes.WdtFile wdt :: ws
          ∧ Forall2 (tile_file (nth 1 argv "") w) pre ws.
Proof.
  intros Hargc Hnew Hwdt Hnums Hpre Hn. simpl. unfold Fixes.main.
  apply Nat.ltb_ge in Hargc. rewrite Hargc, Hnew, Hwdt.
  destruct (convert_adts_run (nth 1 argv "") w (getExistingAdtsNumbers w) [Fixes.WdtFile wdt])
    as [_ Hrun]. simpl in Hrun.
  destruct Hrun as [(ws & Hs & Hw & Hall)
                   | (pre' & n' & post' & ws & Hnums' & Hn' & Hs & Hw & Hall)].
  - exfalso. apply Hn. rewrite Hnums in Hall.
    apply Forall2_app_inv_l in Hall as (ws1 & ws2 & _ & Hall2 & _).
    apply Forall2_cons_inv_l in Hall2 as (f & ws3 & Hf & _).
    apply tile_file_converts. eauto.
  - rewrite Hs, Hw. split; [done|]. exists ws. split; [done|].
    assert (pre' = pre) as ->; [|done].
    rewrite Hnums in Hnums'. clear -Hnums' Hpre Hn Hn' Hall.
    assert (Hpre' : ∀ k, k ∈ pre' → Fixes.tile_converts (nth 1 argv "") w k).
    { intros k [i Hi]%list_elem_of_lookup.
      destruct (Forall2_lookup_l _ _ _ _ _ Hall Hi) as (f & _ & Hf).
      apply tile_file_converts. eauto. }
    clear Hall. revert pre' Hnums' Hpre'.
    induction pre as [|k pre IH]; intros [|k' pre'] Heq Hpre'; simpl in *.
    + done.
    + injection Heq as -> _. exfalso. apply Hn, Hpre'. by left.
    + injection Heq as -> _. exfalso. apply Hn', Hpre. by left.
    + injection Heq as -> Heq. f_equal. apply IH; [|done|].
      * intros j Hj. apply Hpre. by right.
      * intros j Hj. apply Hpre'. by right.
Qed.

(** X10.  Files per listing.  When every listed tile converts, the driver
    writes one file more than the list has entries, and for every tile number
    as many area files as the list holds that number (a tile listed twice is
    written twice). *)
Theorem conversion_files_per_listing (argv : list string) (w : WdtAlpha) (wdt : Wdt) :
  (2 ≤ length argv)%nat →
  WdtAlpha_new (nth 1 argv "") = Some w →
  toWdt w = Some wdt →
  (∀ n, n ∈ getExistingAdtsNumbers w → Fixes.tile_converts (nth 1 argv "") w n) →
  let c := Fixes.main argv in
  length (Fixes.written c) = S (length (getExistingAdtsNumbers w))
  ∧ ∀ n, Fixes.adt_files n c = length (filter (λ m, m = n) (getExistingAdtsNumbers w)).
Proof.
  intros Hargc Hnew Hwdt Hall. simpl. unfold Fixes.main.
  apply Nat.ltb_ge in Hargc. rewrite Hargc, Hnew, Hwdt.
  destruct (convert_adts_run (nth 1 argv "") w (getExistingAdtsNumbers w) [Fixes.WdtFile wdt])
    as [_ Hrun]. simpl in Hrun.
  destruct Hrun as [(ws & Hs & Hw & Hfiles)
                   | (pre & n & post & ws & Hnums & Hn & _)].
  2:{ exfalso. apply Hn, Hall. rewrite Hnums. apply elem_of_app. right. by left. }
  unfold Fixes.adt_files. rewrite Hw. split.
  - simpl. f_equal. symmetry. by eapply Forall2_length.
  - intros n. destruct (tile_files_count n _ _ _ _ Hfiles) as [_ Hcount].
    rewrite filter_cons_False by (simpl; auto). done.
Qed.
End ConversionRuns.

(** ** Success of a repair *)

(** X6.  Success of a repair.  The driver exits 0 exactly when it has at
    least two arguments, argv[1] opens for reading and writing, the pass
    returns without an exception and argv[2] can be created. *)
Theorem repair_succeeds_iff (ops : RepairOps) (argv : list string) (fs : FS) :
  OffsetFix.exit_code (OffsetFix.main ops argv fs) = 0 ↔
  (3 ≤ length argv)%nat
  ∧ (nth 2 argv "" ∉ readonly fs)
  ∧ (∃ zoneFile buf d,
       open_rw fs (nth 1 argv "") = Some zoneFile
       ∧ OffsetFix.result (OffsetFix.try_block ops zoneFile OffsetFixData.zero) = Done buf d).
Proof.
  destruct (main_ending ops argv fs) as
    [Hargc | Hargc Hopen | zoneFile e buf Hargc Hopen Hres
     | zoneFile buf d Hargc Hopen Hres Hro | zoneFile buf d Hargc Hopen Hres Hro]; simpl.
  all: split; [try done | intros (Hlen & Hout & z & b & d' & Hz & Hr)]; try lia; try congruence.
  - by eauto 10.
Qed.

(** ** The further theorems at work on the test data *)

Lemma repair_frame_witness :
  let o := OffsetFix.main OffsetRepairer.ops ["offsetFix"; "in.adt"; "out.adt"] sample_fs in
  "other.adt" ≠ "in.adt" ∧ "other.adt" ≠ "out.adt"
  ∧ files (OffsetFix.fs_after o) !! "other.adt" = files sample_fs !! "other.adt".
Proof.
  assert (H1 : "other.adt" ≠ "in.adt") by discriminate.
  assert (H2 : "other.adt" ≠ "out.adt") by discriminate.
  split; [exact H1|]. split; [exact H2|].
  exact (proj2 (repair_frame OffsetRepairer.ops ["offsetFix"; "in.adt"; "out.adt"] sample_fs)
           "other.adt" H1 H2).
Defined.

Lemma repair_needs_input_witness :
  let o := OffsetFix.main OffsetRepairer.ops ["offsetFix"; "absent.adt"; "out.adt"] sample_fs in
  open_rw sample_fs "absent.adt" = None
  ∧ OffsetFix.steps_called o = []
  ∧ OffsetFix.fs_after o = sample_fs.
Proof.
  assert (H : open_rw sample_fs "absent.adt" = None) by (vm_compute; reflexivity).
  split; [exact H|].
  destruct (repair_needs_input OffsetRepairer.ops ["offsetFix"; "absent.adt"; "out.adt"]
              sample_fs) as [Hiff Hthen].
  assert (Hnone : OffsetFix.steps_called
                    (OffsetFix.main OffsetRepairer.ops ["offsetFix"; "absent.adt"; "out.adt"]
                       sample_fs) = []).
  { apply Hiff. right. exact H. }
  split; [exact Hnone|]. exact (proj1 (Hthen Hnone)).
Defined.

Lemma repair_streams_witness :
  let o := OffsetFix.main OffsetRepairer.ops ["offsetFix"; "in.adt"; "out.adt"] sample_fs in
  OffsetFix.exit_code o = 0 ∧ OffsetFix.cerr o = "" ∧ OffsetFix.cout o ≠ "".
Proof.
  assert (H : OffsetFix.exit_code
                (OffsetFix.main OffsetRepairer.ops ["offsetFix"; "in.adt"; "out.adt"] sample_fs)
              = 0) by (vm_compute; reflexivity).
  split; [exact H|].
  destruct (repair_streams OffsetRepairer.ops ["offsetFix"; "in.adt"; "out.adt"] sample_fs)
    as [[Hcerr _] [Hcout _]].
  split; [exact (Hcerr H) | exact (Hcout H)].
Defined.

Lemma repair_onto_itself_empties_file_witness :
  let o := OffsetFix.main OffsetRepairer.ops ["offsetFix"; "in.adt"; "in.adt"] sample_fs in
  OffsetFix.exit_code o = 0 ∧ files (OffsetFix.fs_after o) !! "in.adt" = Some [].
Proof.
  assert (H : OffsetFix.exit_code
                (OffsetFix.main OffsetRepairer.ops ["offsetFix"; "in.adt"; "in.adt"] sample_fs)
              = 0) by (vm_compute; reflexivity).
  split; [exact H|].
  exact (repair_onto_itself_empties_file OffsetRepairer.ops ["offsetFix"; "in.adt"; "in.adt"]
           sample_fs eq_refl H).
Defined.

Lemma repair_succeeds_iff_witness :
  OffsetFix.exit_code
    (OffsetFix.main OffsetRepairer.ops ["offsetFix"; "in.adt"; "out.adt"] locked_fs) ≠ 0
  ∧ "out.adt" ∈ readonly locked_fs.
Proof.
  assert (H : "out.adt" ∈ readonly locked_fs) by (vm_compute; reflexivity).
  split; [|exact H].
  intros Hexit.
  apply (repair_succeeds_iff OffsetRepairer.ops ["offsetFix"; "in.adt"; "out.adt"] locked_fs)
    in Hexit as (_ & Hout & _).
  exact (Hout H).
Defined.

Lemma conversion_writes_nothing_iff_witness :
  (length ["fixes"] < 2)%nat
  ∧ Fixes.written (@Fixes.main (legacy_files sample_disk) ["fixes"]) = []
  ∧ Fixes.status (@Fixes.main (legacy_files sample_disk) ["fixes"]) = Some 1.
Proof.
  assert (H : (length ["fixes"] < 2)%nat) by (simpl; lia).
  split; [exact H|].
  destruct (@conversion_writes_nothing_iff (legacy_files sample_disk) ["fixes"])
    as (Hnone & Hone & _).
  split; [apply Hnone; left; exact H | apply Hone; exact H].
Defined.

Lemma conversion_succeeds_iff_witness :
  let c := @Fixes.main (scripted_files [5] [5; 6; 7] (λ _ _, Some 9)) ["fixes"; "world.wdt"] in
  Fixes.status c = Some 0
  ∧ ∃ ws, Fixes.written c
          = @Fixes.WdtFile (scripted_files [5] [5; 6; 7] (λ _ _, Some 9)) tt :: ws
          ∧ length ws = 1%nat.
Proof.
  destruct (@conversion_succeeds_iff (scripted_files [5] [5; 6; 7] (λ _ _, Some 9))
              ["fixes"; "world.wdt"] tt tt)
    as [Hiff Hfiles].
  - simpl. lia.
  - reflexivity.
  - reflexivity.
  - assert (Hs : Fixes.status
                   (@Fixes.main (scripted_files [5] [5; 6; 7] (λ _ _, Some 9))
                      ["fixes"; "world.wdt"])
                 = Some 0).
    { apply Hiff. intros n Hn. apply list_elem_of_singleton in Hn as ->.
      exists 9, (9, 5), (9, 5). split; [|split]; reflexivity. }
    split; [exact Hs|].
    destruct (Hfiles Hs) as (ws & Hw & Hall). exists ws. split; [exact Hw|].
    apply Forall2_length in Hall. rewrite <- Hall. reflexivity.
Defined.

Lemma conversion_stops_at_first_failure_witness :
  let c := @Fixes.main (scripted_files [3; 1; 2] [5; 0; 7; 9] (λ _ _, None)) ["fixes"; "world.wdt"] in
  Fixes.status c = None
  ∧ ∃ ws, Fixes.written c
          = @Fixes.WdtFile (scripted_files [3; 1; 2] [5; 0; 7; 9] (λ _ _, None)) tt :: ws
          ∧ length ws = 1%nat.
Proof.
  destruct (@conversion_stops_at_first_failure (scripted_files [3; 1; 2] [5; 0; 7; 9] (λ _ _, None))
              ["fixes"; "world.wdt"] tt tt [3] [2] 1) as (Hs & ws & Hw & Hall).
  - simpl. lia.
  - reflexivity.
  - reflexivity.
  - reflexivity.
  - intros k Hk. apply list_elem_of_singleton in Hk as ->.
    exists 9, (9, 3), (9, 3). split; [|split]; reflexivity.
  - intros (off & a & lk & Hoff & Ha & _).
    vm_compute in Hoff. injection Hoff as <-. vm_compute in Ha. discriminate.
  - split; [exact Hs|]. exists ws. split; [exact Hw|].
    apply Forall2_length in Hall. rewrite <- Hall. reflexivity.
Defined.

Lemma conversion_files_per_listing_witness :
  let c := @Fixes.main (scripted_files [2; 2] [5; 6; 7] (λ _ _, None)) ["fixes"; "world.wdt"] in
  length (Fixes.written c) = 3%nat ∧ Fixes.adt_files 2 c = 2%nat.
Proof.
  destruct (@conversion_files_per_listing (scripted_files [2; 2] [5; 6; 7] (λ _ _, None))
              ["fixes"; "world.wdt"] tt tt) as (Hlen & Hcount).
  - simpl. lia.
  - reflexivity.
  - reflexivity.
  - intros n Hn.
    assert (n = 2) as ->.
    { apply elem_of_cons in Hn as [->|Hn]; [reflexivity|].
      apply list_elem_of_singleton in Hn. exact Hn. }
    exists 7, (7, 2), (7, 2). split; [|split]; reflexivity.
  - split; [exact Hlen|]. rewrite Hcount. vm_compute. reflexivity.
Defined.

